(** * workitem: Gmail to inContact work-item bridge

    A shallow embedding of [gmail.js], [workitem.js] and the driver that joins
    them.  Promise chains are written in a state-and-rejection monad over a
    [World] (the file system, the console and operator events, the [Gmail]
    object); the outside world (mail API, HTTP endpoints, the operator, the
    JSON and base64 library functions) enters through oracle records. *)

From Stdlib Require Import ZArith String Ascii List Lia Bool.
From stdpp Require Import base option list strings pretty gmap.

Open Scope string_scope.
Open Scope list_scope.

(** ** JavaScript strings and the address pattern *)

Module Regex.

(** A regular expression of the fragment that the pattern in [getMessage]
    uses: literal characters, a greedy [+] over a character class, sequencing
    and a capturing group. *)
Inductive regex : Type :=
| RChar (c : ascii)
| RClassPlus (cls : ascii -> bool)
| RSeq (r1 r2 : regex)
| RGroup (r : regex).

(** Greedy iteration of a class: take one more character when possible, give
    it back when the continuation fails. *)
Fixpoint star (cls : ascii -> bool) (s : list ascii)
    (k : list ascii -> option (list ascii)) : option (list ascii) :=
  match s with
  | c :: s' =>
      if cls c then
        match star cls s' k with
        | Some r => Some r
        | None => k s
        end
      else k s
  | [] => k []
  end.

Definition plus (cls : ascii -> bool) (s : list ascii)
    (k : list ascii -> option (list ascii)) : option (list ascii) :=
  match s with
  | c :: s' => if cls c then star cls s' k else None
  | [] => None
  end.

(** Backtracking matcher in continuation style; the result is the input
    that is left after the whole match. *)
Fixpoint rmatch (r : regex) (s : list ascii)
    (k : list ascii -> option (list ascii)) : option (list ascii) :=
  match r with
  | RChar c =>
      match s with
      | x :: s' => if Ascii.eqb x c then k s' else None
      | [] => None
      end
  | RClassPlus cls => plus cls s k
  | RSeq r1 r2 => rmatch r1 s (fun s1 => rmatch r2 s1 k)
  | RGroup r1 => rmatch r1 s k
  end.

(** A match anchored at the head of [s]: the matched text and the rest. *)
Definition match_here (r : regex) (s : list ascii)
    : option (list ascii * list ascii) :=
  match rmatch r s Some with
  | Some rest => Some (take (length s - length rest) s, rest)
  | None => None
  end.

(** [RegExp.prototype.exec] from the head of [s]: the first start position
    with a match wins.  The result is the matched text and what follows. *)
Fixpoint exec (r : regex) (s : list ascii)
    : option (list ascii * list ascii) :=
  match match_here r s with
  | Some m => Some m
  | None =>
      match s with
      | _ :: s' => exec r s'
      | [] => None
      end
  end.

(** The successive matches of a global ([g]) pattern; after an empty match
    the search resumes one character further. *)
Fixpoint match_all (fuel : nat) (r : regex) (s : list ascii)
    : list (list ascii) :=
  match fuel with
  | O => []
  | S fuel' =>
      match exec r s with
      | None => []
      | Some (m, rest) =>
          m :: match_all fuel' r
                 (match m with [] => tail rest | _ => rest end)
      end
  end.

(** [String.prototype.match] with a global pattern: [null] when nothing
    matches, otherwise the array of all matched texts. *)
Definition js_match_g (r : regex) (s : string) : option (list string) :=
  let cs := list_ascii_of_string s in
  match match_all (S (length cs)) r cs with
  | [] => None
  | ms => Some (map string_of_list_ascii ms)
  end.

(** Declarative meaning of a pattern: the texts it can match. *)
Fixpoint lang (r : regex) (w : list ascii) : Prop :=
  match r with
  | RChar c => w = [c]
  | RClassPlus cls => w <> [] /\ forallb cls w = true
  | RSeq r1 r2 => exists w1 w2, w = w1 ++ w2 /\ lang r1 w1 /\ lang r2 w2
  | RGroup r1 => lang r1 w
  end.

End Regex.

Import Regex.

Definition in_range (lo hi c : ascii) : bool :=
  (nat_of_ascii lo <=? nat_of_ascii c)%nat && (nat_of_ascii c <=? nat_of_ascii hi)%nat.

(** The class [[a-zA-Z0-9._-]].  The pattern carries the [i] flag; the class
    already lists both letter cases, and case folding never maps a character
    outside ASCII onto an ASCII one, so the flag changes nothing. *)
Definition addr_class (c : ascii) : bool :=
  in_range "a" "z" c || in_range "A" "Z" c || in_range "0" "9" c
  || Ascii.eqb c "." || Ascii.eqb c "_" || Ascii.eqb c "-".

(** [/([a-zA-Z0-9._-]+@[a-zA-Z0-9._-]+\.[a-zA-Z0-9._-]+)/gi] *)
Definition addr_re : regex :=
  RGroup (RSeq (RClassPlus addr_class)
         (RSeq (RChar "@")
         (RSeq (RClassPlus addr_class)
         (RSeq (RChar ".")
               (RClassPlus addr_class))))).

(** What the specification calls an email-address-shaped text:
    [local@domain.tld], each part a non-empty run of class characters. *)
Definition address_shaped (w : list ascii) : Prop :=
  exists a b c,
    w = a ++ "@"%char :: b ++ "."%char :: c
    /\ a <> [] /\ b <> [] /\ c <> []
    /\ forallb addr_class a = true
    /\ forallb addr_class b = true
    /\ forallb addr_class c = true.

(** The first address-shaped text of a header value, in the words of the
    specification: none when nothing in the value is address-shaped,
    otherwise the leftmost one, the longest at that start. *)
Inductive first_address (v : list ascii) : option (list ascii) -> Prop :=
| no_address :
    (forall pre w post, v = pre ++ w ++ post -> ~ address_shaped w) ->
    first_address v None
| leftmost_address pre m post :
    v = pre ++ m ++ post ->
    address_shaped m ->
    (forall pre' w' post', v = pre' ++ w' ++ post' -> address_shaped w' ->
       length pre <= length pre'
       /\ (length pre' = length pre -> length w' <= length m)) ->
    first_address v (Some m).

(** The input left after a greedy class run starts outside the class. *)
Definition stops (cls : ascii -> bool) (rest : list ascii) : Prop :=
  match rest with
  | [] => True
  | c :: _ => cls c = false
  end.

(** ** JavaScript values, errors and promise outcomes *)

(** Values as [JSON.parse] and the HTTP client hand them to the program.
    Numbers are integers here: the program only tests them for truth and
    prints them. *)
#[warnings="-register-all"]
Inductive JsVal : Type :=
| JUndefined
| JNull
| JBool (b : bool)
| JNum (n : Z)
| JStr (s : string)
| JArr (items : list JsVal)
| JObj (fields : list (string * JsVal)).

Record JsError : Type := mkJsError {
  err_name : string;
  err_message : string;
  err_code : option string
}.

(** [new Error(msg)] *)
Definition Error_ (msg : string) : JsError :=
  {| err_name := "Error"; err_message := msg; err_code := None |}.

(** [err.code === code] *)
Definition has_code (err : JsError) (code : string) : bool :=
  match err_code err with
  | Some c => String.eqb c code
  | None => false
  end.

(** The runtime's [TypeError]; the wording of its message is the engine's
    and nothing below depends on it. *)
Definition TypeError (msg : string) : JsError :=
  {| err_name := "TypeError"; err_message := msg; err_code := None |}.

(** How a promise (or a Node-style callback) settles. *)
Inductive JsResult (A : Type) : Type :=
| Resolved (a : A)
| Rejected (e : JsError).
Arguments Resolved {A} a.
Arguments Rejected {A} e.

Definition rbind {A B} (r : JsResult A) (f : A -> JsResult B) : JsResult B :=
  match r with
  | Resolved a => f a
  | Rejected e => Rejected e
  end.

Definition is_resolved {A} (r : JsResult A) : bool :=
  match r with Resolved _ => true | Rejected _ => false end.

(** The error a settled promise rejected with, if it did. *)
Definition rejection {A} (r : JsResult A) : option JsError :=
  match r with Resolved _ => None | Rejected e => Some e end.

(** ToBoolean *)
Definition truthy (v : JsVal) : bool :=
  match v with
  | JUndefined | JNull => false
  | JBool b => b
  | JNum n => negb (n =? 0)%Z
  | JStr s => negb (String.eqb s "")
  | JArr _ | JObj _ => true
  end.

Fixpoint assoc (name : string) (fields : list (string * JsVal)) : JsVal :=
  match fields with
  | [] => JUndefined
  | (k, v) :: rest => if String.eqb k name then v else assoc name rest
  end.

(** [v.name] for the property names this program reads; none of them lives
    on a prototype, so only objects can answer with something defined, and
    reading from [null] or [undefined] throws. *)
Definition js_get (v : JsVal) (name : string) : JsResult JsVal :=
  match v with
  | JUndefined =>
      Rejected (TypeError ("Cannot read property '" +:+ name +:+ "' of undefined"))
  | JNull =>
      Rejected (TypeError ("Cannot read property '" +:+ name +:+ "' of null"))
  | JObj fields => Resolved (assoc name fields)
  | _ => Resolved JUndefined
  end.

(** [v[0]] *)
Definition js_index0 (v : JsVal) : JsResult JsVal :=
  match v with
  | JUndefined => Rejected (TypeError "Cannot read property '0' of undefined")
  | JNull => Rejected (TypeError "Cannot read property '0' of null")
  | JArr items => Resolved (match items with x :: _ => x | [] => JUndefined end)
  | JStr s =>
      Resolved (match s with
                | String c _ => JStr (String c EmptyString)
                | EmptyString => JUndefined
                end)
  | JObj fields => Resolved (assoc "0" fields)
  | _ => Resolved JUndefined
  end.

Fixpoint join_comma (parts : list string) : string :=
  match parts with
  | [] => ""
  | [p] => p
  | p :: rest => p +:+ "," +:+ join_comma rest
  end.

(** ToString, as applied by string concatenation and template literals. *)
Fixpoint js_to_string (v : JsVal) : string :=
  match v with
  | JUndefined => "undefined"
  | JNull => "null"
  | JBool b => if b then "true" else "false"
  | JNum n => pretty n
  | JStr s => s
  | JArr items =>
      join_comma
        ((fix each (l : list JsVal) : list string :=
            match l with
            | [] => []
            | JUndefined :: l' | JNull :: l' => "" :: each l'
            | x :: l' => js_to_string x :: each l'
            end) items)
  | JObj _ => "[object Object]"
  end.

(** ** Mail API and HTTP data *)

Record Header : Type := mkHeader { h_name : string; h_value : string }.
Record Body : Type := mkBody { b_data : option string }.
Record Payload : Type := mkPayload { headers : list Header; body : Body }.
(** [res.data] of [users.messages.get] *)
Record MessageData : Type := mkMessageData { m_id : string; m_payload : Payload }.
Record MsgRef : Type := mkMsgRef { ref_id : string; ref_threadId : string }.
(** [res.data] of [users.messages.list]; the provider leaves [messages] out
    when nothing matches. *)
Record ListData : Type := mkListData { messages : option (list MsgRef) }.

Record Label : Type := mkLabel { l_id : string; l_name : string }.
(** [res.data] of [users.labels.list] *)
Record LabelsData : Type := mkLabelsData { labels : option (list Label) }.

(** What [getMessage] resolves to. *)
Record MailMessage : Type := mkMailMessage {
  mm_id : string;
  mm_from : string;
  mm_payload : string
}.

Record Request : Type := mkRequest {
  req_url : string;
  req_method : string;
  req_body : string;
  req_headers : list (string * string);
  req_cache : string;
  req_mode : string
}.

Record Response : Type := mkResponse {
  status : Z;
  json : JsResult JsVal
}.

(** [response.ok] of the HTTP client: the status is in the 2xx range. *)
Definition response_ok (r : Response) : bool :=
  (200 <=? status r)%Z && (status r <? 300)%Z.

Record WorkItem : Type := mkWorkItem { key : string; poc : string }.

(** What [processMessage] resolves to. *)
Record Pair : Type := mkPair { msgId : string; contactId : JsVal }.

(** ** The world the program runs in *)

Inductive FsNode : Type :=
| Regular (content : string)
| Faulty (code description : string).

Inductive Event : Type :=
| ConsoleLog (line : string)
| ConsoleError (line : string)
| Question (prompt : string)
| WriteFile (path data : string)
| HttpRequest (req : Request).

(** The [google.auth.OAuth2] object as far as the program touches it: the
    three constructor arguments and the credentials applied to it. *)
Record OAuth2Client : Type := mkOAuth2Client {
  client_id : JsVal;
  client_secret : JsVal;
  redirect_uri : JsVal;
  credentials : option JsVal
}.

Record Gmail : Type := mkGmail {
  credentialFile : string;
  tokenFile : string;
  oAuth2Client : option OAuth2Client
}.

(** [constructor(credentialFile, tokenFile)] *)
Definition Gmail_constructor (credentialFile tokenFile : string) : Gmail :=
  {| credentialFile := credentialFile; tokenFile := tokenFile;
     oAuth2Client := None |}.

Record World : Type := mkWorld {
  files : gmap string FsNode;
  events : list Event;
  gmail : Gmail
}.

Definition is_question (e : Event) : bool :=
  match e with Question _ => true | _ => false end.

Definition is_write (e : Event) : bool :=
  match e with WriteFile _ _ => true | _ => false end.

Definition is_console_error (e : Event) : bool :=
  match e with ConsoleError _ => true | _ => false end.

(** The requests issued through [fetch] so far, in order.  The calls of the
    mail API go through the provider's client library and are not among
    them. *)
Fixpoint requests_in (evs : list Event) : list Request :=
  match evs with
  | [] => []
  | HttpRequest req :: rest => req :: requests_in rest
  | _ :: rest => requests_in rest
  end.

Definition count_events (p : Event -> bool) (w : World) : nat :=
  length (List.filter p (events w)).

(** Number of operator prompts and of token-file writes issued so far. *)
Definition prompts (w : World) : nat := count_events is_question w.
Definition writes (w : World) : nat := count_events is_write w.
Definition requests (w : World) : list Request := requests_in (events w).

(** ** Oracles for everything outside the repository *)

(** How [fs.writeFile] can fail: at the open, before the file is touched, or
    while writing, after the file has been created or truncated; it then
    holds the first [written] characters of the data. *)
Inductive WriteFault : Type :=
| OpenFails (code description : string)
| WriteFails (code description : string) (written : nat).

(** The outside world as one promise chain of the batch sees it. *)
Record Chain : Type := mkChain {
  chain_get : string -> JsResult MessageData;
  chain_fetch : Request -> JsResult Response;
  chain_tick : nat
}.

Record Env : Type := mkEnv {
  JSON_parse : string -> JsResult JsVal;
  JSON_stringify : JsVal -> string;
  atob : string -> string;
  btoa : string -> string;
  generateAuthUrl : OAuth2Client -> string;
  oauth_getToken : OAuth2Client -> string -> JsResult JsVal;
  operator_reply : nat -> string;
  write_fault : string -> option WriteFault;
  messages_list : JsResult ListData;
  chain : nat -> Chain
}.

(** ** Promise chains *)

(** A promise chain: it runs from a world, changes it, and settles. *)
Definition M (A : Type) : Type := World -> JsResult A * World.

Definition resolve {A} (a : A) : M A := fun w => (Resolved a, w).
Definition reject {A} (e : JsError) : M A := fun w => (Rejected e, w).

(** The outcome of a callback-style call, or of code that may throw. *)
Definition settle {A} (r : JsResult A) : M A := fun w => (r, w).

(** [p.then(f)] *)
Definition then_ {A B} (p : M A) (f : A -> M B) : M B :=
  fun w =>
    match p w with
    | (Resolved a, w') => f a w'
    | (Rejected e, w') => (Rejected e, w')
    end.

(** [p.catch(h)] *)
Definition catch_ {A} (p : M A) (h : JsError -> M A) : M A :=
  fun w =>
    match p w with
    | (Resolved a, w') => (Resolved a, w')
    | (Rejected e, w') => h e w'
    end.

Declare Scope js_scope.
Delimit Scope js_scope with js.
Notation "'await' x <- p 'in' k" := (then_ p (fun x => k))
  (at level 10, x name, p at level 100, k at level 200) : js_scope.
Notation "p >>> k" := (then_ p (fun _ => k))
  (at level 80, right associativity) : js_scope.
Open Scope js_scope.

Definition record_event (e : Event) (w : World) : World :=
  {| files := files w; events := events w ++ [e]; gmail := gmail w |}.

Definition emit (e : Event) : M unit :=
  fun w => (Resolved tt, record_event e w).

Definition console_log (line : string) : M unit := emit (ConsoleLog line).
Definition console_error (line : string) : M unit := emit (ConsoleError line).

(** [this] inside the methods of [Gmail] *)
Definition this : M Gmail := fun w => (Resolved (gmail w), w).

(** [fetch(url, options)] as one chain of the batch sees it. *)
Definition fetch (c : Chain) (req : Request) : M Response :=
  emit (HttpRequest req) >>> settle (chain_fetch c req).

Definition fs_error (code description path : string) : JsError :=
  {| err_name := "Error";
     err_message := code +:+ ": " +:+ description +:+ ", open '" +:+ path +:+ "'";
     err_code := Some code |}.

(** [readFileAsync(path)] *)
Definition readFileAsync (path : string) : M string :=
  fun w =>
    match files w !! path with
    | Some (Regular content) => (Resolved content, w)
    | Some (Faulty code description) =>
        (Rejected (fs_error code description path), w)
    | None =>
        (Rejected (fs_error "ENOENT" "no such file or directory" path), w)
    end.

Section Program.

Variable env : Env.

(** The error of a failure while writing: the system call is [write] and
    the message names no path. *)
Definition fs_write_error (code description : string) : JsError :=
  {| err_name := "Error";
     err_message := code +:+ ": " +:+ description +:+ ", write";
     err_code := Some code |}.

(** [writeFileAsync(path, data)]: the file is opened with flag [w], which
    creates or truncates it, and then written. *)
Definition writeFileAsync (path data : string) : M unit :=
  fun w =>
    let evs := events w ++ [WriteFile path data] in
    match write_fault env path with
    | Some (OpenFails code description) =>
        (Rejected (fs_error code description path),
         {| files := files w; events := evs; gmail := gmail w |})
    | Some (WriteFails code description written) =>
        (Rejected (fs_write_error code description),
         {| files := <[path := Regular (substring 0 written data)]> (files w);
            events := evs; gmail := gmail w |})
    | None =>
        (Resolved tt,
         {| files := <[path := Regular data]> (files w); events := evs;
            gmail := gmail w |})
    end.

(** *** gmail.js *)

(** [this.oAuth2Client = new google.auth.OAuth2(...)] *)
Definition set_oAuth2Client (c : OAuth2Client) : M unit :=
  fun w =>
    (Resolved tt,
     {| files := files w; events := events w;
        gmail := {| credentialFile := credentialFile (gmail w);
                    tokenFile := tokenFile (gmail w);
                    oAuth2Client := Some c |} |}).

(** [this.oAuth2Client.setCredentials(token)] *)
Definition setCredentials (token : JsVal) : M unit :=
  fun w =>
    match oAuth2Client (gmail w) with
    | None =>
        (Rejected (TypeError "Cannot read property 'setCredentials' of null"), w)
    | Some c =>
        set_oAuth2Client
          {| client_id := client_id c; client_secret := client_secret c;
             redirect_uri := redirect_uri c; credentials := Some token |} w
    end.

(** The first [then] of [authorize] up to the construction of the client:
    parse the credential file, destructure [credentials.installed], take
    [redirect_uris[0]]. *)
Definition make_client (cred : string) : JsResult OAuth2Client :=
  rbind (JSON_parse env cred) (fun credentials =>
  rbind (js_get credentials "installed") (fun installed =>
  rbind (js_get installed "client_secret") (fun client_secret =>
  rbind (js_get installed "client_id") (fun client_id =>
  rbind (js_get installed "redirect_uris") (fun redirect_uris =>
  rbind (js_index0 redirect_uris) (fun uri0 =>
  Resolved {| client_id := client_id; client_secret := client_secret;
              redirect_uri := uri0; credentials := None |})))))).

(** [_ask()] *)
Definition _ask : M string :=
  console_log "_ask()" >>>
  fun w =>
    then_ (emit (Question "Enter the code from that page here: "))
          (fun _ => resolve (operator_reply env (prompts w))) w.

(** [_getNewToken()] *)
Definition _getNewToken : M unit :=
  console_log "_getNewToken()" >>>
  await self <- this in
  match oAuth2Client self with
  | None => reject (TypeError "Cannot read property 'generateAuthUrl' of null")
  | Some client =>
      console_log ("Authorize this app by visiting this url: "
                   +:+ generateAuthUrl env client) >>>
      catch_
        (await code <- _ask in
         await token <- settle (oauth_getToken env client code) in
         setCredentials token >>>
         writeFileAsync (tokenFile self) (JSON_stringify env token))
        (fun err =>
           console_error ("_getNewToken() - " +:+ err_message err) >>>
           reject err)
  end.

(** The two [then] steps of [authorize], before its [catch]. *)
Definition authorize_then (self : Gmail) : M unit :=
  await cred <- readFileAsync (credentialFile self) in
  await client <- settle (make_client cred) in
  set_oAuth2Client client >>>
  await result <- readFileAsync (tokenFile self) in
  await token <- settle (JSON_parse env result) in
  setCredentials token.

(** [authorize()] *)
Definition authorize : M unit :=
  console_log "authorize()" >>>
  await self <- this in
  catch_
    (authorize_then self)
    (fun err =>
       if has_code err "ENOENT" then _getNewToken
       else
         console_error ("authorize() - " +:+ err_message err) >>>
         reject err).

(** The address extraction of [getMessage]: the first element of the match
    array, or the empty string when [match] answers [null]. *)
Definition extract_from (value : string) : string :=
  match js_match_g addr_re value with
  | Some (first :: _) => first
  | _ => ""
  end.

(** The payload of [getMessage]: [atob] of the body data when that field is
    truthy. *)
Definition decode_payload (data : option string) : string :=
  match data with
  | Some d => if String.eqb d "" then "" else atob env d
  | None => ""
  end.

(** [headers.find(o => o.name === 'From')] *)
Definition find_From (hs : list Header) : option Header :=
  List.find (fun o => String.eqb (h_name o) "From") hs.

(** The [then] callback of [getMessage]. *)
Definition getMessage_then (res : MessageData) : JsResult MailMessage :=
  match find_From (headers (m_payload res)) with
  | None => Rejected (TypeError "Cannot read property 'value' of undefined")
  | Some h =>
      Resolved {| mm_id := m_id res;
                  mm_from := extract_from (h_value h);
                  mm_payload := decode_payload (b_data (body (m_payload res))) |}
  end.

(** [getMessage(id)] *)
Definition getMessage (c : Chain) (id : string) : M MailMessage :=
  console_log ("getMessage() - id: " +:+ id) >>>
  catch_
    (await res <- settle (chain_get c id) in
     settle (getMessage_then res))
    (fun err =>
       console_error ("getMessage() - " +:+ err_message err) >>>
       reject err).

(** [getMessageList()] *)
Definition getMessageList : M (option (list MsgRef)) :=
  console_log "getMessageList()" >>>
  catch_
    (await res <- settle (messages_list env) in
     resolve (messages res))
    (fun err =>
       console_error ("getMessageList() - " +:+ err_message err) >>>
       reject err).

(** The [then] callback of [getLabelId]: the first label with exactly that
    name. *)
Definition getLabelId_then (name : string) (res : LabelsData) : JsResult string :=
  match labels res with
  | None => Rejected (TypeError "Cannot read property 'find' of undefined")
  | Some ls =>
      match List.find (fun o => String.eqb (l_name o) name) ls with
      | Some label => Resolved (l_id label)
      | None => Rejected (Error_ "label not found")
      end
  end.

(** [getLabelId(name)]; [labels_list] is how the [users.labels.list] call
    settles. *)
Definition getLabelId (labels_list : JsResult LabelsData) (name : string)
    : M string :=
  console_log ("getLabelId() - name: " +:+ name) >>>
  catch_
    (await res <- settle labels_list in
     settle (getLabelId_then name res))
    (fun err =>
       console_error ("getLabelId() - " +:+ err_message err) >>>
       reject err).

(** *** workitem.js *)

(** [constructor(app, vendor, key, poc)] *)
Definition WorkItem_constructor (app vendor secret poc : string) : WorkItem :=
  {| key := btoa env (app +:+ "@" +:+ vendor +:+ ":" +:+ secret); poc := poc |}.

Definition token_request (self : WorkItem) : Request :=
  {| req_url := "https://api.incontact.com/InContactAuthorizationServer/Token";
     req_method := "POST";
     req_body :=
       JSON_stringify env (JObj [("grant_type", JStr "client_credentials")]);
     req_headers := [("Content-Type", "application/json");
                     ("Authorization", "basic " +:+ key self)];
     req_cache := "no-store";
     req_mode := "cors" |}.

(** [json && json.access_token && json.resource_server_base_uri] *)
Definition has_token_and_uri (j : JsVal) : JsResult bool :=
  if truthy j then
    rbind (js_get j "access_token") (fun tok =>
    if truthy tok then
      rbind (js_get j "resource_server_base_uri") (fun uri =>
      Resolved (truthy uri))
    else Resolved false)
  else Resolved false.

(** The first [then] shared by [getToken] and [postWorkItem]. *)
Definition json_if_ok (response : Response) : M JsVal :=
  if response_ok response then settle (json response)
  else reject (Error_ ("response status: " +:+ pretty (status response))).

(** [getToken()] *)
Definition getToken (c : Chain) (self : WorkItem) : M JsVal :=
  console_log "getToken()" >>>
  catch_
    (await response <- fetch c (token_request self) in
     await j <- json_if_ok response in
     await complete <- settle (has_token_and_uri j) in
     if (complete : bool) then resolve j
     else reject (Error_ "missing token and/or uri"))
    (fun err =>
       console_error ("getToken() - " +:+ err_message err) >>>
       reject err).

Definition work_item_request (self : WorkItem)
    (workItemURL : string) (token : JsVal) (id from payload type : string)
    : Request :=
  {| req_url := workItemURL;
     req_method := "POST";
     req_body :=
       JSON_stringify env
         (JObj [("pointOfContact", JStr (poc self));
                ("workItemId", JStr id);
                ("workItemPayload", JStr payload);
                ("workItemType", JStr type);
                ("from", JStr from)]);
     req_headers := [("Content-Type", "application/json");
                     ("Authorization", "bearer " +:+ js_to_string token)];
     req_cache := "no-store";
     req_mode := "cors" |}.

(** [postWorkItem(workItemURL, token, id, from, payload, type)] *)
Definition postWorkItem (c : Chain) (self : WorkItem)
    (workItemURL : string) (token : JsVal) (id from payload type : string)
    : M JsVal :=
  console_log ("postWorkItem() - url: " +:+ workItemURL +:+ " from: " +:+ from) >>>
  catch_
    (await response <-
       fetch c (work_item_request self workItemURL token id from payload type) in
     await j <- json_if_ok response in
     settle (js_get j "contactId"))
    (fun err =>
       console_error ("postWorkItem() - " +:+ err_message err) >>>
       reject err).

Definition version : string := "v13.0".

(** The template literal of [sendEmail]. *)
Definition workItemURL_of (resource_server_base_uri : JsVal) : string :=
  js_to_string resource_server_base_uri
  +:+ "services/" +:+ version +:+ "/interactions/work-items".

(** [sendEmail(id, from, payload)] *)
Definition sendEmail (c : Chain) (self : WorkItem) (id from payload : string)
    : M JsVal :=
  console_log ("sendEmail() - id: " +:+ id +:+ " from: " +:+ from) >>>
  catch_
    (await data <- getToken c self in
     await token <- settle (js_get data "access_token") in
     await base <- settle (js_get data "resource_server_base_uri") in
     await contactId <-
       postWorkItem c self (workItemURL_of base) token id from payload "email" in
     resolve contactId)
    (fun err =>
       console_error ("sendEmail() - " +:+ err_message err) >>>
       reject err).

(** *** The driver *)

Definition TOKEN_FILE : string := "your gmail token file".
Definition CREDENTIAL_FILE : string := "your gmail credentials file".
Definition INCONTACT_APP : string := "your app name".
Definition INCONTACT_VENDOR : string := "your vendor name".
Definition INCONTACT_KEY : string := "your key".
Definition INCONTACT_POC : string := "your poc".

Definition workItem : WorkItem :=
  WorkItem_constructor INCONTACT_APP INCONTACT_VENDOR INCONTACT_KEY INCONTACT_POC.

(** [processMessage(id)] *)
Definition processMessage (c : Chain) (id : string) : M Pair :=
  await msg <- getMessage c id in
  await contactId <- sendEmail c workItem (mm_id msg) (mm_from msg) (mm_payload msg) in
  resolve {| msgId := id; contactId := contactId |}.

End Program.

(** [Promise.all] over promises that settle at the given ticks: the values
    in input order when all resolve, otherwise the rejection that comes
    first in time (the earlier promise on a tie). *)
Fixpoint first_rejection {A} (ps : list (nat * JsResult A))
    : option (nat * JsError) :=
  match ps with
  | [] => None
  | (t, Resolved _) :: rest => first_rejection rest
  | (t, Rejected e) :: rest =>
      match first_rejection rest with
      | Some (t', e') => if (t' <? t)%nat then Some (t', e') else Some (t, e)
      | None => Some (t, e)
      end
  end.

Fixpoint resolved_values {A} (ps : list (nat * JsResult A)) : list A :=
  match ps with
  | [] => []
  | (_, Resolved a) :: rest => a :: resolved_values rest
  | (_, Rejected _) :: rest => resolved_values rest
  end.

Definition Promise_all {A} (ps : list (nat * JsResult A)) : JsResult (list A) :=
  match first_rejection ps with
  | Some (_, e) => Rejected e
  | None => Resolved (resolved_values ps)
  end.

Section Driver.

Variable env : Env.

(** The promises pushed by the [forEach] of the driver: one chain per listed
    message, each started from the world the list call left behind.  The
    index only selects the chain's view of the outside world. *)
Fixpoint launch_from (i : nat) (w : World) (msgs : list MsgRef)
    : list (JsResult Pair * World) :=
  match msgs with
  | [] => []
  | msg :: rest =>
      processMessage env (chain env i) (ref_id msg) w :: launch_from (S i) w rest
  end.

Fixpoint settle_ticks (i : nat) (outs : list (JsResult Pair * World))
    : list (nat * JsResult Pair) :=
  match outs with
  | [] => []
  | o :: rest => (chain_tick (chain env i), fst o) :: settle_ticks (S i) rest
  end.

(** The third [then] of the driver: [msgs.forEach(...)] and [Promise.all]. *)
Definition batch (w : World) (msgs : option (list MsgRef))
    : JsResult (list Pair) :=
  match msgs with
  | None => Rejected (TypeError "Cannot read property 'forEach' of undefined")
  | Some l => Promise_all (settle_ticks 0 (launch_from 0 w l))
  end.

(** The driver's chain up to the value that its last [then] or its [catch]
    receives. *)
Definition run (w0 : World) : JsResult (list Pair) :=
  match then_ (authorize env) (fun _ => getMessageList env) w0 with
  | (Resolved msgs, w1) => batch w1 msgs
  | (Rejected e, _) => Rejected e
  end.

Inductive Printed : Type :=
| PrintedResults (results : list Pair)
| PrintedError (err : JsError).

(** What the driver writes with its final [console.log]. *)
Definition main (w0 : World) : Printed :=
  match run w0 with
  | Resolved results => PrintedResults results
  | Rejected err => PrintedError err
  end.

End Driver.

(** The world at process start. *)
Definition initial_world (fs : gmap string FsNode) : World :=
  {| files := fs; events := [];
     gmail := Gmail_constructor CREDENTIAL_FILE TOKEN_FILE |}.

(** ** Names the specification gives to the program's errors *)

(** A non-successful HTTP response; the message carries the status. *)
Definition ApiError (code : Z) : JsError :=
  Error_ ("response status: " +:+ pretty code).

(** A successful token response without the token or the base URL. *)
Definition ProtocolError : JsError := Error_ "missing token and/or uri".

(** Reading the field gives nothing the program can use: the field is
    absent, or holds [null], [false], [0] or the empty string. *)
Definition lacks_field (j : JsVal) (name : string) : Prop :=
  match js_get j name with
  | Resolved v => truthy v = false
  | Rejected _ => True
  end.

(** ** The fetch and the post of one message, decided by the outside world *)

Section Outcomes.

Variable env : Env.

(** The per-message fetch succeeds: the mail API delivers the message and
    the message has a [From] header. *)
Definition message_fetched (c : Chain) (id : string)
    (res : MessageData) (h : Header) : Prop :=
  chain_get c id = Resolved res
  /\ find_From (headers (m_payload res)) = Some h.

(** The per-message fetch fails: the mail API refuses, or the message comes
    without a [From] header. *)
Inductive fetch_fails (c : Chain) (id : string) : JsError -> Prop :=
| mail_api_fails e :
    chain_get c id = Rejected e -> fetch_fails c id e
| no_From_header res :
    chain_get c id = Resolved res ->
    find_From (headers (m_payload res)) = None ->
    fetch_fails c id (TypeError "Cannot read property 'value' of undefined").

(** The token endpoint answers 2xx with a document that holds the token
    [tok] and the base URI [base]. *)
Definition token_granted (c : Chain) (self : WorkItem) (tok base : JsVal)
    : Prop :=
  exists resp j,
    chain_fetch c (token_request env self) = Resolved resp
    /\ (200 <= status resp < 300)%Z
    /\ json resp = Resolved j
    /\ js_get j "access_token" = Resolved tok /\ truthy tok = true
    /\ js_get j "resource_server_base_uri" = Resolved base
    /\ truthy base = true.

(** The ways the token call can fail. *)
Inductive token_fails (c : Chain) (self : WorkItem) : JsError -> Prop :=
| token_call_fails e :
    chain_fetch c (token_request env self) = Rejected e ->
    token_fails c self e
| token_call_refused resp :
    chain_fetch c (token_request env self) = Resolved resp ->
    ~ (200 <= status resp < 300)%Z ->
    token_fails c self (ApiError (status resp))
| token_body_unreadable resp e :
    chain_fetch c (token_request env self) = Resolved resp ->
    (200 <= status resp < 300)%Z ->
    json resp = Rejected e ->
    token_fails c self e
| token_document_incomplete resp j :
    chain_fetch c (token_request env self) = Resolved resp ->
    (200 <= status resp < 300)%Z ->
    json resp = Resolved j ->
    lacks_field j "access_token" \/ lacks_field j "resource_server_base_uri" ->
    token_fails c self ProtocolError.

(** The request that posts the work item, once the token is granted. *)
Definition post_request (self : WorkItem) (tok base : JsVal)
    (id from payload : string) : Request :=
  work_item_request env self (workItemURL_of base) tok id from payload "email".

(** The per-message post succeeds and answers [contactId]: the token is
    granted and the work-item endpoint answers 2xx with a body from which
    [contactId] is read. *)
Definition work_item_posted (c : Chain) (self : WorkItem)
    (id from payload : string) (contactId : JsVal) : Prop :=
  exists tok base resp body,
    token_granted c self tok base
    /\ chain_fetch c (post_request self tok base id from payload) = Resolved resp
    /\ (200 <= status resp < 300)%Z
    /\ json resp = Resolved body
    /\ js_get body "contactId" = Resolved contactId.

(** The ways the per-message post can fail. *)
Inductive post_fails (c : Chain) (self : WorkItem) (id from payload : string)
    : JsError -> Prop :=
| no_token e :
    token_fails c self e -> post_fails c self id from payload e
| work_item_call_fails tok base e :
    token_granted c self tok base ->
    chain_fetch c (post_request self tok base id from payload) = Rejected e ->
    post_fails c self id from payload e
| work_item_call_refused tok base resp :
    token_granted c self tok base ->
    chain_fetch c (post_request self tok base id from payload) = Resolved resp ->
    ~ (200 <= status resp < 300)%Z ->
    post_fails c self id from payload (ApiError (status resp))
| work_item_body_unreadable tok base resp e :
    token_granted c self tok base ->
    chain_fetch c (post_request self tok base id from payload) = Resolved resp ->
    (200 <= status resp < 300)%Z ->
    json resp = Rejected e ->
    post_fails c self id from payload e
| work_item_body_not_readable_as_object tok base resp body e :
    token_granted c self tok base ->
    chain_fetch c (post_request self tok base id from payload) = Resolved resp ->
    (200 <= status resp < 300)%Z ->
    json resp = Resolved body ->
    js_get body "contactId" = Rejected e ->
    post_fails c self id from payload e.

(** Fetch and post of one listed message both succeed; the post is made for
    what the fetch extracted and answers [contactId]. *)
Definition chain_succeeds (c : Chain) (id : string) (contactId : JsVal)
    : Prop :=
  exists res h,
    message_fetched c id res h
    /\ work_item_posted c (workItem env) (m_id res) (extract_from (h_value h))
         (decode_payload env (b_data (body (m_payload res)))) contactId.

(** The fetch of one listed message fails, or its post does. *)
Inductive chain_fails (c : Chain) (id : string) : JsError -> Prop :=
| fails_at_fetch e :
    fetch_fails c id e -> chain_fails c id e
| fails_at_post res h e :
    message_fetched c id res h ->
    post_fails c (workItem env) (m_id res) (extract_from (h_value h))
      (decode_payload env (b_data (body (m_payload res)))) e ->
    chain_fails c id e.

End Outcomes.

(** ** A sample outside world, to run the program on concrete inputs *)

Module Sample.

Definition dquote : string := String "034"%char EmptyString.
Definition quoted (s : string) : string := dquote +:+ s +:+ dquote.

Definition b64_alphabet : string :=
  "ABCDEFGHIJKLMNOPQRSTUVWXYZabcdefghijklmnopqrstuvwxyz0123456789+/".

Definition bits_of_ascii (c : ascii) : list bool :=
  let '(Ascii b0 b1 b2 b3 b4 b5 b6 b7) := c in [b7; b6; b5; b4; b3; b2; b1; b0].

Fixpoint nat_of_bits (acc : nat) (bs : list bool) : nat :=
  match bs with
  | [] => acc
  | b :: bs' => nat_of_bits (2 * acc + (if b then 1 else 0)) bs'
  end.

Fixpoint groups (fuel n : nat) (bs : list bool) : list (list bool) :=
  match fuel, bs with
  | O, _ | _, [] => []
  | S fuel', _ => take n bs :: groups fuel' n (drop n bs)
  end.

Definition sextet_char (g : list bool) : ascii :=
  match String.get (nat_of_bits 0 (take 6 (g ++ repeat false 5))) b64_alphabet with
  | Some c => c
  | None => "="%char
  end.

(** Standard base64 with padding. *)
Definition base64_encode (s : string) : string :=
  let bs := flat_map bits_of_ascii (list_ascii_of_string s) in
  let cs := map sextet_char (groups (length bs) 6 bs) in
  string_of_list_ascii (cs ++ repeat "="%char ((4 - length cs mod 4) mod 4)).

Definition sextet_of (c : ascii) : option nat :=
  let n := nat_of_ascii c in
  if in_range "A" "Z" c then Some (n - 65)
  else if in_range "a" "z" c then Some (n - 97 + 26)
  else if in_range "0" "9" c then Some (n - 48 + 52)
  else if Ascii.eqb c "+" || Ascii.eqb c "-" then Some 62
  else if Ascii.eqb c "/" || Ascii.eqb c "_" then Some 63
  else None.

Definition sextet_bits (c : ascii) : list bool :=
  match sextet_of c with
  | Some n => drop 2 (bits_of_ascii (ascii_of_nat n))
  | None => []
  end.

(** A decoder that takes the standard and the URL-safe alphabet alike and
    skips everything else. *)
Definition base64_decode (s : string) : string :=
  let bs := flat_map sextet_bits (list_ascii_of_string s) in
  string_of_list_ascii
    (map (fun g => ascii_of_nat (nat_of_bits 0 g))
       (List.filter (fun g => (length g =? 8)%nat) (groups (length bs) 8 bs))).

(** A serializer without escapes. *)
Fixpoint stringify (v : JsVal) : string :=
  match v with
  | JUndefined => "undefined"
  | JNull => "null"
  | JBool b => if b then "true" else "false"
  | JNum n => pretty n
  | JStr s => quoted s
  | JArr items =>
      "[" +:+ join_comma
                ((fix each (l : list JsVal) : list string :=
                    match l with
                    | [] => []
                    | x :: l' => stringify x :: each l'
                    end) items) +:+ "]"
  | JObj fields =>
      "{" +:+ join_comma
                ((fix each (l : list (string * JsVal)) : list string :=
                    match l with
                    | [] => []
                    | (k, x) :: l' => (quoted k +:+ ":" +:+ stringify x) :: each l'
                    end) fields) +:+ "}"
  end.

Definition credentials_json : JsVal :=
  JObj [("installed",
         JObj [("client_id", JStr "cid");
               ("client_secret", JStr "shh");
               ("redirect_uris", JArr [JStr "urn:ietf:wg:oauth:2.0:oob"])])].

Definition token_json : JsVal :=
  JObj [("access_token", JStr "ya29"); ("refresh_token", JStr "1//r")].

Definition SyntaxError : JsError :=
  {| err_name := "SyntaxError"; err_message := "Unexpected end of JSON input";
     err_code := None |}.

(** A parser that knows the two documents of the sample file system. *)
Definition parse (text : string) : JsResult JsVal :=
  if String.eqb text (stringify credentials_json) then Resolved credentials_json
  else if String.eqb text (stringify token_json) then Resolved token_json
  else Rejected SyntaxError.

Definition from_header : string := quoted "A B" +:+ " <a@b.com>".

Definition message (id : string) (hs : list Header) (data : option string)
    : MessageData :=
  {| m_id := id; m_payload := {| headers := hs; body := {| b_data := data |} |} |}.

Definition base_uri : string := "https://api-c7.incontact.com/inContactAPI/".

Definition token_response : Response :=
  {| status := 200;
     json := Resolved (JObj [("access_token", JStr "tok");
                             ("resource_server_base_uri", JStr base_uri)]) |}.

Definition post_response : Response :=
  {| status := 202; json := Resolved (JObj [("contactId", JNum 4711)]) |}.

Definition token_url : string :=
  "https://api.incontact.com/InContactAuthorizationServer/Token".

(** A chain whose message has a sender and a body and whose two HTTP calls
    succeed. *)
Definition good_chain : Chain :=
  {| chain_get := fun id =>
       Resolved (message id [mkHeader "To" "me@x.org"; mkHeader "From" from_header]
                   (Some "aGVsbG8"));
     chain_fetch := fun req =>
       Resolved (if String.eqb (req_url req) token_url
                 then token_response else post_response);
     chain_tick := 1 |}.

(** A chain whose message has no [From] header. *)
Definition headless_chain : Chain :=
  {| chain_get := fun id => Resolved (message id [mkHeader "To" "me@x.org"] None);
     chain_fetch := chain_fetch good_chain;
     chain_tick := 0 |}.

Definition world_env (exchange : JsResult JsVal) (listing : JsResult ListData)
    (chains : nat -> Chain) : Env :=
  {| JSON_parse := parse;
     JSON_stringify := stringify;
     atob := base64_decode;
     btoa := base64_encode;
     generateAuthUrl := fun _ => "https://accounts.google.com/o/oauth2/v2/auth";
     oauth_getToken := fun _ _ => exchange;
     operator_reply := fun _ => "4/code";
     write_fault := fun _ => None;
     messages_list := listing;
     chain := chains |}.

Definition two_messages : ListData :=
  {| messages := Some [mkMsgRef "m1" "t1"; mkMsgRef "m2" "t2"] |}.

Definition env : Env :=
  world_env (Resolved token_json) (Resolved two_messages) (fun _ => good_chain).

(** The operator's code is refused by the provider. *)
Definition env_refused : Env :=
  world_env (Rejected (Error_ "invalid_grant")) (Resolved two_messages)
    (fun _ => good_chain).

(** The second message of the batch has no [From] header. *)
Definition env_one_bad : Env :=
  world_env (Resolved token_json) (Resolved two_messages)
    (fun i => match i with 1 => headless_chain | _ => good_chain end).

(** The provider lists an empty inbox. *)
Definition env_empty_inbox : Env :=
  world_env (Resolved token_json) (Resolved {| messages := None |})
    (fun _ => good_chain).

Definition fs_credentials_only : gmap string FsNode :=
  {[ CREDENTIAL_FILE := Regular (stringify credentials_json) ]}.

Definition fs_with_token : gmap string FsNode :=
  <[ TOKEN_FILE := Regular (stringify token_json) ]> fs_credentials_only.

End Sample.

(** ** Sample worlds in which something goes wrong *)

Module Faults.

Definition denied : Response :=
  {| status := 401; json := Resolved (JObj [("error", JStr "invalid_client")]) |}.

(** The token endpoint answers 401. *)
Definition denied_chain : Chain :=
  {| chain_get := chain_get Sample.good_chain;
     chain_fetch := fun _ => Resolved denied;
     chain_tick := 2 |}.

(** The work-item endpoint answers 200 with the body [null]. *)
Definition null_body_chain : Chain :=
  {| chain_get := chain_get Sample.good_chain;
     chain_fetch := fun req =>
       Resolved (if String.eqb (req_url req) Sample.token_url
                 then Sample.token_response
                 else {| status := 200; json := Resolved JNull |});
     chain_tick := 2 |}.

Definition overloaded : Response :=
  {| status := 500; json := Resolved (JObj [("error", JStr "try later")]) |}.

(** The token is granted but the work-item endpoint answers 500. *)
Definition refused_post_chain : Chain :=
  {| chain_get := chain_get Sample.good_chain;
     chain_fetch := fun req =>
       Resolved (if String.eqb (req_url req) Sample.token_url
                 then Sample.token_response else overloaded);
     chain_tick := 3 |}.

(** The mail API refuses the message. *)
Definition unreachable_chain : Chain :=
  {| chain_get := fun _ => Rejected (Error_ "Not Found");
     chain_fetch := chain_fetch Sample.good_chain;
     chain_tick := 0 |}.

(** A token file that is not JSON. *)
Definition fs_garbled_token : gmap string FsNode :=
  <[ TOKEN_FILE := Regular "{" ]> Sample.fs_credentials_only.

(** A token file that cannot be read. *)
Definition fs_locked_token : gmap string FsNode :=
  <[ TOKEN_FILE := Faulty "EACCES" "permission denied" ]>
    Sample.fs_credentials_only.

(** The mail API refuses to list the inbox. *)
Definition env_no_listing : Env :=
  Sample.world_env (Resolved Sample.token_json) (Rejected (Error_ "Forbidden"))
    (fun _ => Sample.good_chain).

(** The post of the second listed message is refused. *)
Definition env_second_post_refused : Env :=
  Sample.world_env (Resolved Sample.token_json) (Resolved Sample.two_messages)
    (fun i => match i with 1 => refused_post_chain | _ => Sample.good_chain end).

(** The inbox is listed as an empty array. *)
Definition env_zero_messages : Env :=
  Sample.world_env (Resolved Sample.token_json)
    (Resolved {| messages := Some [] |}) (fun _ => Sample.good_chain).

(** The disk is full: every write fails. *)
Definition env_disk_full : Env :=
  {| JSON_parse := Sample.parse;
     JSON_stringify := Sample.stringify;
     atob := Sample.base64_decode;
     btoa := Sample.base64_encode;
     generateAuthUrl := generateAuthUrl Sample.env;
     oauth_getToken := fun _ _ => Resolved Sample.token_json;
     operator_reply := fun _ => "4/code";
     write_fault := fun _ => Some (WriteFails "ENOSPC" "no space left on device" 0);
     messages_list := Resolved Sample.two_messages;
     chain := fun _ => Sample.good_chain |}.

(** The token file may not be created: every open for writing fails. *)
Definition env_read_only : Env :=
  {| JSON_parse := Sample.parse;
     JSON_stringify := Sample.stringify;
     atob := Sample.base64_decode;
     btoa := Sample.base64_encode;
     generateAuthUrl := generateAuthUrl Sample.env;
     oauth_getToken := fun _ _ => Resolved Sample.token_json;
     operator_reply := fun _ => "4/code";
     write_fault := fun _ => Some (OpenFails "EACCES" "permission denied");
     messages_list := Resolved Sample.two_messages;
     chain := fun _ => Sample.good_chain |}.

Definition sample_client : OAuth2Client :=
  {| client_id := JStr "cid"; client_secret := JStr "shh";
     redirect_uri := JStr "urn:ietf:wg:oauth:2.0:oob"; credentials := None |}.

(** A second call on an object that already holds a client, after the
    credential file has gone. *)
Definition world_old_client : World :=
  {| files := ∅; events := [];
     gmail := {| credentialFile := CREDENTIAL_FILE; tokenFile := TOKEN_FILE;
                 oAuth2Client := Some sample_client |} |}.

End Faults.

(** * Properties *)

(** ** The matcher against the declarative meaning of patterns *)

Section MatcherCorrect.

Implicit Types (s w rest : list ascii) (k : list ascii -> option (list ascii)).

Lemma star_sound cls s k res :
  star cls s k = Some res ->
  exists w s', s = w ++ s' /\ forallb cls w = true /\ k s' = Some res.
Proof.
  revert res. induction s as [|c s IH]; intros res H; simpl in H.
  - exists [], []. auto.
  - destruct (cls c) eqn:Hc.
    + destruct (star cls s k) as [r|] eqn:Hs.
      * destruct (IH r eq_refl) as (w & s' & -> & Hw & Hk).
        exists (c :: w), s'. simpl. rewrite Hc, Hw. inversion H; subst. auto.
      * exists [], (c :: s). auto.
    + exists [], (c :: s). auto.
Qed.

Lemma plus_sound cls s k res :
  plus cls s k = Some res ->
  exists w s', s = w ++ s' /\ w <> [] /\ forallb cls w = true /\ k s' = Some res.
Proof.
  destruct s as [|c s]; simpl; [discriminate|].
  destruct (cls c) eqn:Hc; [|discriminate].
  intros H. destruct (star_sound _ _ _ _ H) as (w & s' & -> & Hw & Hk).
  exists (c :: w), s'. simpl. rewrite Hc, Hw. repeat split; auto; discriminate.
Qed.

Lemma rmatch_sound r : forall s k res,
  rmatch r s k = Some res ->
  exists w s', s = w ++ s' /\ lang r w /\ k s' = Some res.
Proof.
  induction r as [c|cls|r1 IH1 r2 IH2|r IH]; intros s k res H; simpl in H.
  - destruct s as [|x s]; [discriminate|].
    destruct (Ascii.eqb x c) eqn:Hx; [|discriminate].
    apply Ascii.eqb_eq in Hx. subst x. exists [c], s. simpl. auto.
  - destruct (plus_sound _ _ _ _ H) as (w & s' & -> & Hne & Hw & Hk).
    exists w, s'. simpl. auto.
  - destruct (IH1 _ _ _ H) as (w1 & s1 & -> & L1 & H1).
    destruct (IH2 _ _ _ H1) as (w2 & s2 & -> & L2 & H2).
    exists (w1 ++ w2), s2. rewrite <- app_assoc. simpl. eauto 10.
  - destruct (IH _ _ _ H) as (w & s' & -> & L & Hk). exists w, s'. auto.
Qed.

Lemma star_complete cls w : forall s' k,
  forallb cls w = true -> k s' <> None -> star cls (w ++ s') k <> None.
Proof.
  induction w as [|c w IH]; intros s' k Hw Hk; simpl.
  - destruct s' as [|c s']; simpl; auto.
    destruct (cls c); auto. destruct (star cls s' k); auto; discriminate.
  - simpl in Hw. apply andb_true_iff in Hw as [Hc Hw]. rewrite Hc.
    specialize (IH s' k Hw Hk). destruct (star cls (w ++ s') k); [discriminate|].
    contradiction.
Qed.

Lemma plus_complete cls w s' k :
  w <> [] -> forallb cls w = true -> k s' <> None -> plus cls (w ++ s') k <> None.
Proof.
  destruct w as [|c w]; [contradiction|]. intros _ Hw Hk. simpl in *.
  apply andb_true_iff in Hw as [Hc Hw]. rewrite Hc. now apply star_complete.
Qed.

Lemma rmatch_complete r : forall w s' k,
  lang r w -> k s' <> None -> rmatch r (w ++ s') k <> None.
Proof.
  induction r as [c|cls|r1 IH1 r2 IH2|r IH]; intros w s' k L Hk; simpl in *.
  - subst w. simpl. now rewrite Ascii.eqb_refl.
  - destruct L. now apply plus_complete.
  - destruct L as (w1 & w2 & -> & L1 & L2). rewrite <- app_assoc.
    apply IH1; auto.
  - auto.
Qed.

Lemma match_here_sound r s m rest :
  match_here r s = Some (m, rest) -> s = m ++ rest /\ lang r m.
Proof.
  unfold match_here. destruct (rmatch r s Some) as [rest'|] eqn:H; [|discriminate].
  intros E. inversion E; subst; clear E.
  destruct (rmatch_sound _ _ _ _ H) as (w & s' & -> & L & Hk).
  inversion Hk; subst.
  rewrite length_app, Nat.add_sub, take_app_length. auto.
Qed.

Lemma match_here_complete r s :
  match_here r s = None -> forall w post, s = w ++ post -> ~ lang r w.
Proof.
  unfold match_here. intros H w post -> L.
  pose proof (rmatch_complete r w post Some L) as C.
  destruct (rmatch r (w ++ post) Some); [discriminate H|].
  apply C; [discriminate | reflexivity].
Qed.

Lemma exec_unfold r s :
  exec r s =
  match match_here r s with
  | Some m => Some m
  | None => match s with _ :: s' => exec r s' | [] => None end
  end.
Proof. destruct s; reflexivity. Qed.

Lemma exec_sound r : forall s m rest,
  exec r s = Some (m, rest) ->
  exists pre, s = pre ++ m ++ rest /\ lang r m
    /\ match_here r (m ++ rest) = Some (m, rest)
    /\ forall pre' w' post', s = pre' ++ w' ++ post' -> lang r w' ->
       length pre <= length pre'.
Proof.
  induction s as [|c s IH]; intros m rest H; rewrite exec_unfold in H.
  - destruct (match_here r []) as [[m' rest']|] eqn:Hm; [|discriminate].
    inversion H; subst. destruct (match_here_sound _ _ _ _ Hm) as [E L].
    exists []. rewrite <- E. simpl. repeat split; auto. intros; lia.
  - destruct (match_here r (c :: s)) as [[m' rest']|] eqn:Hm.
    + inversion H; subst. destruct (match_here_sound _ _ _ _ Hm) as [E L].
      exists []. rewrite <- E. simpl. repeat split; auto. intros; lia.
    + destruct (IH _ _ H) as (pre & -> & L & Hh & Hleft).
      exists (c :: pre). repeat split; auto.
      intros pre' w' post' E L'. destruct pre' as [|c' pre'].
      * exfalso. simpl in E. exact (match_here_complete _ _ Hm _ _ E L').
      * simpl in E. inversion E; subst. simpl.
        specialize (Hleft _ _ _ H2 L'). lia.
Qed.

Lemma exec_complete r : forall s,
  exec r s = None ->
  forall pre w post, s = pre ++ w ++ post -> ~ lang r w.
Proof.
  induction s as [|c s IH]; intros H pre w post E; rewrite exec_unfold in H.
  - destruct (match_here r []) eqn:Hm; [discriminate|].
    symmetry in E. apply app_eq_nil in E as [-> E].
    eapply match_here_complete; eauto.
  - destruct (match_here r (c :: s)) eqn:Hm; [discriminate|].
    destruct pre as [|c' pre].
    + eapply match_here_complete; eauto.
    + simpl in E. inversion E; subst. eapply IH; eauto.
Qed.

End MatcherCorrect.

(** ** The address pattern *)

Section AddressPattern.

Implicit Types (s w rest : list ascii).

Lemma lang_addr_re w : lang addr_re w <-> address_shaped w.
Proof.
  unfold address_shaped. simpl. split.
  - intros (a & t1 & -> & [Ha Fa] & at_ & t2 & -> & -> & b & t3 & -> & [Hb Fb]
            & dot & c & -> & -> & Hc & Fc).
    exists a, b, c. simpl. auto 10.
  - intros (a & b & c & -> & Ha & Hb & Hc & Fa & Fb & Fc).
    exists a, ("@"%char :: b ++ "."%char :: c). repeat split; auto.
    exists ["@"%char], (b ++ "."%char :: c). repeat split; auto.
    exists b, ("."%char :: c). repeat split; auto.
    exists ["."%char], c. repeat split; auto.
Qed.

Lemma star_all_stops cls s rest :
  star cls s Some = Some rest -> stops cls rest.
Proof.
  revert rest. induction s as [|c s IH]; intros rest H; simpl in H.
  - inversion H. exact I.
  - destruct (cls c) eqn:Hc.
    + destruct (star cls s Some) as [r|] eqn:Hs.
      * inversion H; subst. auto.
      * exfalso. apply (star_complete cls [] s Some); auto; discriminate.
    + inversion H; subst. exact Hc.
Qed.

Lemma plus_all_stops cls s rest :
  plus cls s Some = Some rest -> stops cls rest.
Proof.
  destruct s as [|c s]; simpl; [discriminate|].
  destruct (cls c); [apply star_all_stops | discriminate].
Qed.

(** Two runs of class characters that end at a character outside the class
    and start at the same place are the same run. *)
Lemma class_run_unique (cls : ascii -> bool) : forall (a a' : list ascii) x x' t t',
  forallb cls a = true -> forallb cls a' = true ->
  cls x = false -> cls x' = false ->
  a ++ x :: t = a' ++ x' :: t' -> a = a' /\ t = t'.
Proof.
  induction a as [|y a IH]; intros [|y' a'] x x' t t' Fa Fa' Hx Hx' E;
    simpl in *.
  - inversion E; auto.
  - inversion E; subst. apply andb_true_iff in Fa' as [C _]. congruence.
  - inversion E; subst. apply andb_true_iff in Fa as [C _]. congruence.
  - inversion E; subst.
    apply andb_true_iff in Fa as [_ Fa]. apply andb_true_iff in Fa' as [_ Fa'].
    destruct (IH _ _ _ _ _ Fa Fa' Hx Hx' H1) as [-> ->]. auto.
Qed.

(** A run of class characters cannot reach past the place where the
    class stops. *)
Lemma class_run_bounded (cls : ascii -> bool) : forall (r : list ascii) rest r' post',
  forallb cls r' = true -> stops cls rest ->
  r ++ rest = r' ++ post' -> length r' <= length r.
Proof.
  induction r as [|y r IH]; intros rest [|y' r'] post' F St E; simpl in *;
    try lia.
  - subst rest. simpl in St. apply andb_true_iff in F as [C _]. congruence.
  - inversion E; subst. apply andb_true_iff in F as [_ F].
    specialize (IH _ _ _ F St H1). lia.
Qed.

Lemma addr_class_at : addr_class "@" = false.
Proof. reflexivity. Qed.

Lemma addr_class_dot : addr_class "." = true.
Proof. reflexivity. Qed.

(** At a given start, the pattern takes the longest address-shaped text. *)
Lemma addr_match_here_longest s m rest :
  match_here addr_re s = Some (m, rest) ->
  forall w' post', s = w' ++ post' -> address_shaped w' ->
  length w' <= length m.
Proof.
  intros H w' post' E (a' & b' & c' & -> & Ha' & Hb' & Hc' & Fa' & Fb' & Fc').
  destruct (match_here_sound _ _ _ _ H) as [Es _].
  unfold match_here in H.
  destruct (rmatch addr_re s Some) as [rest0|] eqn:R; [|discriminate].
  injection H as _ Hr. subst rest0. simpl in R.
  destruct (plus_sound _ _ _ _ R) as (a & s1 & Ea & Ha & Fa & R1).
  destruct s1 as [|x s2]; [discriminate|].
  destruct (Ascii.eqb x "@") eqn:Hx; [|discriminate].
  apply Ascii.eqb_eq in Hx. subst x.
  destruct (plus_sound _ _ _ _ R1) as (b & s3 & Eb & Hb & Fb & R2).
  destruct s3 as [|x s4]; [discriminate|].
  destruct (Ascii.eqb x ".") eqn:Hx; [|discriminate].
  apply Ascii.eqb_eq in Hx. subst x.
  pose proof (plus_all_stops _ _ _ R2) as St.
  destruct (plus_sound _ _ _ _ R2) as (c & s5 & Ec & Hc & Fc & R3).
  inversion R3; subst s5. subst s4 s2.
  assert (Em : m = a ++ "@"%char :: b ++ "."%char :: c).
  { apply (app_inv_tail rest). rewrite <- Es, Ea.
    repeat (rewrite <- app_assoc; simpl). reflexivity. }
  rewrite Ea in E. rewrite <- app_assoc in E. simpl in E.
  destruct (class_run_unique addr_class _ _ _ _ _ _ Fa Fa'
              addr_class_at addr_class_at E) as [-> E2].
  assert (B : length (b' ++ "."%char :: c') <= length (b ++ "."%char :: c)).
  { apply (class_run_bounded addr_class _ rest _ post'); auto.
    - rewrite forallb_app. simpl. rewrite Fb', Fc'. reflexivity.
    - rewrite <- E2, <- app_assoc. reflexivity. }
  rewrite Em. rewrite !length_app in *. simpl in *. rewrite !length_app in *.
  simpl in *. lia.
Qed.

Lemma exec_first_address v :
  first_address v (option_map fst (exec addr_re v)).
Proof.
  destruct (exec addr_re v) as [[m rest]|] eqn:H; simpl.
  - destruct (exec_sound _ _ _ _ H) as (pre & E & L & Hh & Hleft).
    apply (leftmost_address v pre m rest E); [now apply lang_addr_re|].
    intros pre' w' post' E' S'. split.
    + apply (Hleft pre' w' post' E'). now apply lang_addr_re.
    + intros Hlen. rewrite E in E'.
      assert (pre = pre' /\ m ++ rest = w' ++ post') as [-> E2].
      { apply app_inj_1; auto. }
      eapply addr_match_here_longest; eauto.
  - apply no_address. intros pre w post E S.
    apply (exec_complete _ _ H _ _ _ E). now apply lang_addr_re.
Qed.

Lemma extract_from_exec value :
  extract_from value =
  match exec addr_re (list_ascii_of_string value) with
  | Some (m, _) => string_of_list_ascii m
  | None => ""
  end.
Proof.
  unfold extract_from, js_match_g. simpl.
  destruct (exec addr_re (list_ascii_of_string value)) as [[m rest]|];
    reflexivity.
Qed.

End AddressPattern.

(** ** [getMessage] *)

Section GetMessage.

Variables (env : Env) (c : Chain) (id : string).

(** [getMessage] in closed form: one log line, then the callback's result,
    with one more line on the error console when it rejects. *)
Lemma getMessage_run w :
  getMessage env c id w =
  let w1 := record_event (ConsoleLog ("getMessage() - id: " +:+ id)) w in
  match rbind (chain_get c id) (getMessage_then env) with
  | Resolved msg => (Resolved msg, w1)
  | Rejected e =>
      (Rejected e,
       record_event (ConsoleError ("getMessage() - " +:+ err_message e)) w1)
  end.
Proof.
  unfold getMessage, then_, catch_, console_log, console_error, emit, settle,
    reject. simpl.
  destruct (chain_get c id) as [res|e]; simpl; [|reflexivity].
  destruct (getMessage_then env res); reflexivity.
Qed.

Lemma getMessage_resolved_inv w msg w' :
  getMessage env c id w = (Resolved msg, w') ->
  exists res h,
    chain_get c id = Resolved res
    /\ find_From (headers (m_payload res)) = Some h
    /\ msg = {| mm_id := m_id res;
                mm_from := extract_from (h_value h);
                mm_payload := decode_payload env (b_data (body (m_payload res))) |}.
Proof.
  rewrite getMessage_run. simpl.
  destruct (chain_get c id) as [res|e]; simpl; [|discriminate].
  unfold getMessage_then.
  destruct (find_From (headers (m_payload res))) as [h|] eqn:Hf; [|discriminate].
  intros H. inversion H; subst. exists res, h. auto.
Qed.

Lemma getMessage_with_From w res h :
  chain_get c id = Resolved res ->
  find_From (headers (m_payload res)) = Some h ->
  getMessage env c id w =
  (Resolved {| mm_id := m_id res;
               mm_from := extract_from (h_value h);
               mm_payload := decode_payload env (b_data (body (m_payload res))) |},
   record_event (ConsoleLog ("getMessage() - id: " +:+ id)) w).
Proof.
  intros Hget Hfind. rewrite getMessage_run, Hget. simpl.
  unfold getMessage_then. rewrite Hfind. reflexivity.
Qed.

End GetMessage.

Lemma address_shaped_nonempty w : address_shaped w -> w <> [].
Proof.
  intros (a & b & c & -> & Ha & _). destruct a; [contradiction|discriminate].
Qed.

Lemma string_of_list_ascii_empty l : string_of_list_ascii l = "" -> l = [].
Proof. destruct l; [reflexivity|discriminate]. Qed.

(** C6: when the message has a [From] header, [getMessage] resolves and its
    [from] is the first address-shaped text of that header's value (the
    leftmost one, the longest at that start), and the empty string when no
    part of the value is address-shaped. *)
Theorem C6_from_is_first_address env c id w res h :
  chain_get c id = Resolved res ->
  find_From (headers (m_payload res)) = Some h ->
  exists msg w' found,
    getMessage env c id w = (Resolved msg, w')
    /\ first_address (list_ascii_of_string (h_value h)) found
    /\ mm_from msg = match found with
                     | Some m => string_of_list_ascii m
                     | None => ""
                     end.
Proof.
  intros Hget Hfind.
  eexists _, _, (option_map fst (exec addr_re (list_ascii_of_string (h_value h)))).
  split; [apply (getMessage_with_From env c id w res h Hget Hfind)|].
  split; [apply exec_first_address|].
  simpl. rewrite extract_from_exec.
  destruct (exec addr_re (list_ascii_of_string (h_value h))) as [[m rest]|];
    reflexivity.
Qed.

Lemma C6_from_example :
  exists msg w',
    getMessage Sample.env Sample.good_chain "m1" (initial_world ∅)
    = (Resolved msg, w')
    /\ mm_from msg = "a@b.com".
Proof.
  destruct (C6_from_is_first_address Sample.env Sample.good_chain "m1"
              (initial_world ∅) _ _ eq_refl eq_refl)
    as (msg & w' & found & Hrun & _ & _).
  exists msg, w'. split; [exact Hrun|].
  vm_compute in Hrun. inversion Hrun. reflexivity.
Defined.

(** C10: a message without a header named [From] makes [getMessage] reject
    with the [TypeError] of the unguarded lookup; whenever [getMessage]
    resolves with an empty [from], a [From] header was there and no part of
    its value is address-shaped. *)
Theorem C10_missing_From_rejects env c id w res :
  chain_get c id = Resolved res ->
  (find_From (headers (m_payload res)) = None ->
   exists e w',
     getMessage env c id w = (Rejected e, w') /\ err_name e = "TypeError")
  /\ (forall msg w',
        getMessage env c id w = (Resolved msg, w') -> mm_from msg = "" ->
        exists h,
          find_From (headers (m_payload res)) = Some h
          /\ forall pre a post,
               list_ascii_of_string (h_value h) = pre ++ a ++ post ->
               ~ address_shaped a).
Proof.
  intros Hget. split.
  - intros Hnone. rewrite getMessage_run, Hget. simpl.
    unfold getMessage_then. rewrite Hnone. eexists _, _. split; reflexivity.
  - intros msg w' Hrun Hfrom.
    destruct (getMessage_resolved_inv _ _ _ _ _ _ Hrun) as (res' & h & Hget' & Hf & ->).
    rewrite Hget in Hget'. inversion Hget'; subst res'. exists h. split; [exact Hf|].
    simpl in Hfrom. rewrite extract_from_exec in Hfrom.
    destruct (exec addr_re (list_ascii_of_string (h_value h))) as [[m rest]|] eqn:He.
    + exfalso. apply string_of_list_ascii_empty in Hfrom. subst m.
      destruct (exec_sound _ _ _ _ He) as (_ & _ & L & _).
      apply lang_addr_re in L. now apply address_shaped_nonempty in L.
    + intros pre a post E S. apply (exec_complete _ _ He _ _ _ E).
      now apply lang_addr_re.
Qed.

Lemma C10_headless_example :
  exists e w',
    getMessage Sample.env Sample.headless_chain "m2" (initial_world ∅)
    = (Rejected e, w')
    /\ err_name e = "TypeError".
Proof.
  exact (proj1 (C10_missing_From_rejects Sample.env Sample.headless_chain "m2"
                  (initial_world ∅) _ eq_refl) eq_refl).
Defined.

(** C4: for a message that [getMessage] returns, the payload is the decoder
    applied to the body data when that field is present and not empty, and
    the empty string when the field is absent or empty. *)
Theorem C4_payload_decoded_or_empty env c id w res h :
  chain_get c id = Resolved res ->
  find_From (headers (m_payload res)) = Some h ->
  exists msg w',
    getMessage env c id w = (Resolved msg, w')
    /\ (forall d, b_data (body (m_payload res)) = Some d -> d <> "" ->
        mm_payload msg = atob env d)
    /\ (b_data (body (m_payload res)) = None
        \/ b_data (body (m_payload res)) = Some "" ->
        mm_payload msg = "").
Proof.
  intros Hget Hfind. eexists _, _.
  split; [apply (getMessage_with_From env c id w res h Hget Hfind)|].
  simpl. unfold decode_payload. split.
  - intros d -> Hd. destruct (String.eqb_spec d ""); [contradiction|reflexivity].
  - intros [-> | ->]; reflexivity.
Qed.

Lemma C4_payload_example :
  exists msg w',
    getMessage Sample.env Sample.good_chain "m1" (initial_world ∅)
    = (Resolved msg, w')
    /\ mm_payload msg = "hello".
Proof.
  destruct (C4_payload_decoded_or_empty Sample.env Sample.good_chain "m1"
              (initial_world ∅) _ _ eq_refl eq_refl)
    as (msg & w' & Hrun & Hdata & _).
  exists msg, w'. split; [exact Hrun|].
  rewrite (Hdata "aGVsbG8" eq_refl ltac:(discriminate)). reflexivity.
Defined.

(** ** [WorkItem] *)

Lemma requests_in_app evs evs' :
  requests_in (evs ++ evs') = requests_in evs ++ requests_in evs'.
Proof.
  induction evs as [|e evs IH]; simpl; [reflexivity|].
  destruct e; simpl; rewrite IH; reflexivity.
Qed.

Lemma requests_record_event e w :
  requests (record_event e w) =
  requests w ++ match e with HttpRequest req => [req] | _ => [] end.
Proof.
  unfold requests, record_event. simpl. rewrite requests_in_app.
  destruct e; reflexivity.
Qed.

Lemma response_ok_spec r :
  response_ok r = true <-> (200 <= status r < 300)%Z.
Proof. unfold response_ok. rewrite andb_true_iff, Z.leb_le, Z.ltb_lt. tauto. Qed.

Lemma response_not_ok r :
  ~ (200 <= status r < 300)%Z -> response_ok r = false.
Proof.
  intros H. destruct (response_ok r) eqn:E; [|reflexivity].
  apply response_ok_spec in E. contradiction.
Qed.

Lemma assoc_absent name fields :
  (forall v, ~ In (name, v) fields) -> assoc name fields = JUndefined.
Proof.
  induction fields as [|[k v] fields IH]; intros H; simpl; [reflexivity|].
  destruct (String.eqb_spec k name) as [->|_].
  - exfalso. apply (H v). now left.
  - apply IH. intros v' Hin. apply (H v'). now right.
Qed.

Lemma lacking_is_incomplete j :
  lacks_field j "access_token" \/ lacks_field j "resource_server_base_uri" ->
  has_token_and_uri j = Resolved false.
Proof.
  unfold lacks_field, has_token_and_uri.
  destruct j as [| |b|n|s|items|fields]; simpl; intros H; try reflexivity.
  - destruct b; reflexivity.
  - destruct (negb (n =? 0)%Z); reflexivity.
  - destruct (negb (String.eqb s "")); reflexivity.
  - destruct H as [H | H]; rewrite H; [reflexivity|].
    destruct (truthy (assoc "access_token" fields)); reflexivity.
Qed.

Lemma holding_is_complete j tok uri :
  js_get j "access_token" = Resolved tok -> truthy tok = true ->
  js_get j "resource_server_base_uri" = Resolved uri -> truthy uri = true ->
  has_token_and_uri j = Resolved true.
Proof.
  unfold has_token_and_uri.
  destruct j; simpl; intros Ht Tt Hu Tu;
    try discriminate; try (inversion Ht; subst; discriminate).
  inversion Ht; inversion Hu; subst. rewrite Tt, Tu. reflexivity.
Qed.

Lemma complete_holds j :
  has_token_and_uri j = Resolved true ->
  exists tok uri,
    js_get j "access_token" = Resolved tok /\ truthy tok = true
    /\ js_get j "resource_server_base_uri" = Resolved uri /\ truthy uri = true.
Proof.
  unfold has_token_and_uri.
  destruct j as [| |b|n|s|items|fields]; simpl; try discriminate.
  - destruct b; discriminate.
  - destruct (negb (n =? 0)%Z); discriminate.
  - destruct (negb (String.eqb s "")); discriminate.
  - destruct (truthy (assoc "access_token" fields)) eqn:Ht; [|discriminate].
    intros H. injection H as Hu.
    exists (assoc "access_token" fields),
      (assoc "resource_server_base_uri" fields).
    repeat split; assumption.
Qed.

Lemma incomplete_lacks j :
  has_token_and_uri j = Resolved false ->
  lacks_field j "access_token" \/ lacks_field j "resource_server_base_uri".
Proof.
  unfold lacks_field, has_token_and_uri.
  destruct j as [| |b|n|s|items|fields]; simpl; auto.
  destruct (truthy (assoc "access_token" fields)) eqn:Ht; auto.
  intros H. injection H as Hu. auto.
Qed.

Lemma has_token_and_uri_settles j : exists b, has_token_and_uri j = Resolved b.
Proof.
  unfold has_token_and_uri.
  destruct j as [| |b|n|s|items|fields]; simpl;
    try (eexists; reflexivity).
  - destruct b; eexists; reflexivity.
  - destruct (negb (n =? 0)%Z); eexists; reflexivity.
  - destruct (negb (String.eqb s "")); eexists; reflexivity.
  - destruct (truthy (assoc "access_token" fields)); eexists; reflexivity.
Qed.

Section WorkItemCalls.

Variables (env : Env) (c : Chain).

Ltac chain_steps :=
  unfold then_, catch_, fetch, console_log, console_error, emit, settle,
    resolve, reject, json_if_ok; simpl.

Lemma getToken_requests self w :
  requests (snd (getToken env c self w)) = requests w ++ [token_request env self].
Proof.
  unfold getToken. chain_steps.
  destruct (chain_fetch c (token_request env self)) as [resp|e]; simpl.
  - destruct (response_ok resp); simpl.
    + destruct (json resp) as [j|e]; simpl.
      * destruct (has_token_and_uri j) as [[|]|e]; simpl;
          rewrite ?requests_record_event, ?app_nil_r; reflexivity.
      * rewrite ?requests_record_event, ?app_nil_r; reflexivity.
    + rewrite ?requests_record_event, ?app_nil_r; reflexivity.
  - rewrite ?requests_record_event, ?app_nil_r; reflexivity.
Qed.

Lemma getToken_not_ok self w resp :
  chain_fetch c (token_request env self) = Resolved resp ->
  response_ok resp = false ->
  exists w', getToken env c self w = (Rejected (ApiError (status resp)), w').
Proof.
  intros Hf Hok. unfold getToken. chain_steps. rewrite Hf. simpl.
  rewrite Hok. simpl. eexists. reflexivity.
Qed.

Lemma getToken_incomplete self w resp j :
  chain_fetch c (token_request env self) = Resolved resp ->
  response_ok resp = true ->
  json resp = Resolved j ->
  has_token_and_uri j = Resolved false ->
  exists w', getToken env c self w = (Rejected ProtocolError, w').
Proof.
  intros Hf Hok Hj Hc. unfold getToken. chain_steps. rewrite Hf. simpl.
  rewrite Hok, Hj. simpl. rewrite Hc. simpl. eexists. reflexivity.
Qed.

Lemma getToken_complete self w resp j :
  chain_fetch c (token_request env self) = Resolved resp ->
  response_ok resp = true ->
  json resp = Resolved j ->
  has_token_and_uri j = Resolved true ->
  getToken env c self w =
  (Resolved j,
   record_event (HttpRequest (token_request env self))
     (record_event (ConsoleLog "getToken()") w)).
Proof.
  intros Hf Hok Hj Hc. unfold getToken. chain_steps. rewrite Hf. simpl.
  rewrite Hok, Hj. simpl. rewrite Hc. reflexivity.
Qed.

Lemma postWorkItem_requests self url token id from payload type w :
  requests (snd (postWorkItem env c self url token id from payload type w)) =
  requests w ++ [work_item_request env self url token id from payload type].
Proof.
  unfold postWorkItem. chain_steps.
  destruct (chain_fetch c _) as [resp|e]; simpl.
  - destruct (response_ok resp); simpl.
    + destruct (json resp) as [j|e]; simpl.
      * destruct (js_get j "contactId"); simpl;
          rewrite ?requests_record_event, ?app_nil_r; reflexivity.
      * rewrite ?requests_record_event, ?app_nil_r; reflexivity.
    + rewrite ?requests_record_event, ?app_nil_r; reflexivity.
  - rewrite ?requests_record_event, ?app_nil_r; reflexivity.
Qed.

Lemma postWorkItem_not_ok self url token id from payload type w resp :
  chain_fetch c (work_item_request env self url token id from payload type)
  = Resolved resp ->
  response_ok resp = false ->
  exists w',
    postWorkItem env c self url token id from payload type w
    = (Rejected (ApiError (status resp)), w').
Proof.
  intros Hf Hok. unfold postWorkItem. chain_steps. rewrite Hf. simpl.
  rewrite Hok. simpl. eexists. reflexivity.
Qed.

Lemma postWorkItem_ok self url token id from payload type w resp j :
  chain_fetch c (work_item_request env self url token id from payload type)
  = Resolved resp ->
  response_ok resp = true ->
  json resp = Resolved j ->
  exists w',
    fst (postWorkItem env c self url token id from payload type w)
    = js_get j "contactId"
    /\ snd (postWorkItem env c self url token id from payload type w) = w'.
Proof.
  intros Hf Hok Hj. unfold postWorkItem. chain_steps. rewrite Hf. simpl.
  rewrite Hok, Hj. simpl. destruct (js_get j "contactId"); simpl; eauto.
Qed.

(** [sendEmail] once the token call has succeeded: what is left is the post. *)
Lemma sendEmail_posts_after_token self id from payload w resp j tok base :
  chain_fetch c (token_request env self) = Resolved resp ->
  response_ok resp = true ->
  json resp = Resolved j ->
  has_token_and_uri j = Resolved true ->
  js_get j "access_token" = Resolved tok ->
  js_get j "resource_server_base_uri" = Resolved base ->
  sendEmail env c self id from payload w =
  catch_
    (then_ (postWorkItem env c self (workItemURL_of base) tok id from payload "email")
           (fun contactId => resolve contactId))
    (fun err =>
       console_error ("sendEmail() - " +:+ err_message err) >>> reject err)
    (record_event (HttpRequest (token_request env self))
       (record_event (ConsoleLog "getToken()")
          (record_event
             (ConsoleLog ("sendEmail() - id: " +:+ id +:+ " from: " +:+ from)) w))).
Proof.
  intros Hf Hok Hj Hc Ht Hu.
  unfold sendEmail at 1. unfold then_ at 1. unfold console_log at 1. simpl.
  unfold catch_ at 1. unfold then_ at 1.
  rewrite (getToken_complete self _ resp j Hf Hok Hj Hc).
  unfold then_ at 1. unfold settle at 1. rewrite Ht.
  unfold then_ at 1. unfold settle at 1. rewrite Hu.
  reflexivity.
Qed.

(** The outcome of [postWorkItem], whatever it logs. *)
Lemma postWorkItem_outcome self url token id from payload type w :
  fst (postWorkItem env c self url token id from payload type w) =
  rbind (chain_fetch c (work_item_request env self url token id from payload type))
    (fun resp =>
       if response_ok resp
       then rbind (json resp) (fun j => js_get j "contactId")
       else Rejected (ApiError (status resp))).
Proof.
  unfold postWorkItem. chain_steps.
  destruct (chain_fetch c _) as [resp|e]; simpl; [|reflexivity].
  destruct (response_ok resp); simpl; [|reflexivity].
  destruct (json resp) as [j|e]; simpl; [|reflexivity].
  destruct (js_get j "contactId"); reflexivity.
Qed.

(** The outcome of [getToken], whatever it logs. *)
Lemma getToken_outcome self w :
  fst (getToken env c self w) =
  rbind (chain_fetch c (token_request env self))
    (fun resp =>
       if response_ok resp
       then rbind (json resp) (fun j =>
            rbind (has_token_and_uri j) (fun complete =>
            if (complete : bool) then Resolved j else Rejected ProtocolError))
       else Rejected (ApiError (status resp))).
Proof.
  unfold getToken. chain_steps.
  destruct (chain_fetch c (token_request env self)) as [resp|e]; simpl;
    [|reflexivity].
  destruct (response_ok resp); simpl; [|reflexivity].
  destruct (json resp) as [j|e]; simpl; [|reflexivity].
  destruct (has_token_and_uri j) as [[|]|e]; reflexivity.
Qed.

(** [sendEmail] when the token call has failed. *)
Lemma sendEmail_without_token self id from payload w e :
  fst (getToken env c self
         (record_event
            (ConsoleLog ("sendEmail() - id: " +:+ id +:+ " from: " +:+ from)) w))
  = Rejected e ->
  fst (sendEmail env c self id from payload w) = Rejected e.
Proof.
  intros Hg.
  unfold sendEmail, then_, catch_, console_log, console_error, emit, settle,
    resolve, reject. simpl.
  destruct (getToken env c self _) as [r w2]. simpl in Hg. subst r.
  reflexivity.
Qed.

End WorkItemCalls.

(** C7: [getToken] sends one request, a client-credentials grant whose
    [Authorization] header is [basic] followed by the base64 of
    [app@vendor:secret]; it rejects with [ApiError] when the response is not
    successful, with [ProtocolError] when a successful response lacks the
    access token or the base URL, and otherwise resolves to the response
    document, which holds both. *)
Theorem C7_getToken_grant_and_errors env c app vendor secret poc w :
  let self := WorkItem_constructor env app vendor secret poc in
  let req := token_request env self in
  requests (snd (getToken env c self w)) = requests w ++ [req]
  /\ req_headers req =
       [("Content-Type", "application/json");
        ("Authorization",
         "basic " +:+ btoa env (app +:+ "@" +:+ vendor +:+ ":" +:+ secret))]
  /\ req_body req =
       JSON_stringify env (JObj [("grant_type", JStr "client_credentials")])
  /\ (forall resp,
        chain_fetch c req = Resolved resp ->
        ~ (200 <= status resp < 300)%Z ->
        exists w', getToken env c self w = (Rejected (ApiError (status resp)), w'))
  /\ (forall resp j,
        chain_fetch c req = Resolved resp ->
        (200 <= status resp < 300)%Z ->
        json resp = Resolved j ->
        lacks_field j "access_token" \/ lacks_field j "resource_server_base_uri" ->
        exists w', getToken env c self w = (Rejected ProtocolError, w'))
  /\ (forall resp j tok uri,
        chain_fetch c req = Resolved resp ->
        (200 <= status resp < 300)%Z ->
        json resp = Resolved j ->
        js_get j "access_token" = Resolved tok -> truthy tok = true ->
        js_get j "resource_server_base_uri" = Resolved uri -> truthy uri = true ->
        exists w', getToken env c self w = (Resolved j, w')).
Proof.
  intros self req. split; [apply getToken_requests|].
  split; [reflexivity|]. split; [reflexivity|]. split; [|split].
  - intros resp Hf Hs. apply getToken_not_ok; [exact Hf|].
    now apply response_not_ok.
  - intros resp j Hf Hs Hj Hl.
    apply (getToken_incomplete env c self w resp j); auto.
    + now apply response_ok_spec.
    + now apply lacking_is_incomplete.
  - intros resp j tok uri Hf Hs Hj Ht Tt Hu Tu. eexists.
    apply (getToken_complete env c self w resp j); auto.
    + now apply response_ok_spec.
    + now apply (holding_is_complete j tok uri).
Qed.

Lemma C7_getToken_example :
  exists w',
    getToken Sample.env Sample.good_chain
      (WorkItem_constructor Sample.env "app" "vendor" "key" "poc")
      (initial_world ∅)
    = (Resolved (JObj [("access_token", JStr "tok");
                       ("resource_server_base_uri", JStr Sample.base_uri)]), w').
Proof.
  apply (proj2 (proj2 (proj2 (proj2 (proj2
           (C7_getToken_grant_and_errors Sample.env Sample.good_chain
              "app" "vendor" "key" "poc" (initial_world ∅))))))
         Sample.token_response _ (JStr "tok") (JStr Sample.base_uri));
    try reflexivity.
  simpl. lia.
Defined.

(** C8: [postWorkItem] rejects with an [ApiError] that carries the status
    when the response is outside the 2xx range; on a successful response it
    resolves to the [contactId] field of the body as it stands, and to
    [undefined] when the body has no such field. *)
Theorem C8_postWorkItem_result env c self url token id from payload type w :
  let req := work_item_request env self url token id from payload type in
  (forall resp,
     chain_fetch c req = Resolved resp ->
     ~ (200 <= status resp < 300)%Z ->
     exists w',
       postWorkItem env c self url token id from payload type w
       = (Rejected (ApiError (status resp)), w'))
  /\ (forall resp fields,
        chain_fetch c req = Resolved resp ->
        (200 <= status resp < 300)%Z ->
        json resp = Resolved (JObj fields) ->
        exists w',
          postWorkItem env c self url token id from payload type w
          = (Resolved (assoc "contactId" fields), w')
          /\ ((forall v, ~ In ("contactId", v) fields) ->
              assoc "contactId" fields = JUndefined)).
Proof.
  intros req. split.
  - intros resp Hf Hs. apply postWorkItem_not_ok; [exact Hf|].
    now apply response_not_ok.
  - intros resp fields Hf Hs Hj.
    apply response_ok_spec in Hs.
    destruct (postWorkItem_ok env c self url token id from payload type w
                resp _ Hf Hs Hj) as (w' & Hfst & Hsnd).
    exists w'. split; [|apply assoc_absent].
    destruct (postWorkItem env c self url token id from payload type w).
    simpl in *. subst. reflexivity.
Qed.

Lemma C8_postWorkItem_example :
  exists w',
    postWorkItem Sample.env Sample.good_chain (workItem Sample.env)
      "https://h/work-items" (JStr "tok") "m1" "a@b.com" "hello" "email"
      (initial_world ∅)
    = (Resolved (JNum 4711), w').
Proof.
  destruct (proj2 (C8_postWorkItem_result Sample.env Sample.good_chain
                     (workItem Sample.env) "https://h/work-items" (JStr "tok")
                     "m1" "a@b.com" "hello" "email" (initial_world ∅))
              Sample.post_response [("contactId", JNum 4711)] eq_refl
              ltac:(simpl; lia) eq_refl)
    as (w' & Hrun & _).
  exists w'. exact Hrun.
Defined.

(** C5: once the token call has succeeded with base URI [base], [sendEmail]
    issues exactly one further request, and its URL is [base] directly
    followed by [services/v13.0/interactions/work-items]; no separator is
    put between the two. *)
Theorem C5_work_item_url env c self id from payload w resp j tok base :
  chain_fetch c (token_request env self) = Resolved resp ->
  (200 <= status resp < 300)%Z ->
  json resp = Resolved j ->
  js_get j "access_token" = Resolved tok -> truthy tok = true ->
  js_get j "resource_server_base_uri" = Resolved (JStr base) -> base <> "" ->
  requests (snd (sendEmail env c self id from payload w)) =
  requests w ++
  [token_request env self;
   work_item_request env self
     (base +:+ "services/v13.0/interactions/work-items")
     tok id from payload "email"].
Proof.
  intros Hf Hs Hj Ht Tt Hu Hb.
  assert (Tu : truthy (JStr base) = true).
  { simpl. destruct (String.eqb_spec base ""); [contradiction|reflexivity]. }
  apply response_ok_spec in Hs.
  pose proof (holding_is_complete j tok (JStr base) Ht Tt Hu Tu) as Hc.
  unfold sendEmail, then_, catch_, console_log, console_error, emit, settle,
    resolve, reject. simpl.
  rewrite (getToken_complete env c self _ resp j Hf Hs Hj Hc).
  rewrite Ht, Hu. simpl.
  match goal with
  | |- context [postWorkItem ?e ?c ?s ?u ?t ?i ?f ?p ?ty ?w0] =>
      pose proof (postWorkItem_requests e c s u t i f p ty w0) as Hp;
      destruct (postWorkItem e c s u t i f p ty w0) as [[v|err] w3]
  end; simpl in *; rewrite ?requests_record_event, ?app_nil_r; rewrite Hp;
    rewrite ?requests_record_event, ?app_nil_r, <- ?app_assoc; reflexivity.
Qed.

Lemma C5_work_item_url_example :
  map req_url
    (requests (snd (sendEmail Sample.env Sample.good_chain (workItem Sample.env)
                      "m1" "a@b.com" "hello" (initial_world ∅))))
  = [Sample.token_url;
     "https://api-c7.incontact.com/inContactAPI/services/v13.0/interactions/work-items"].
Proof.
  rewrite (C5_work_item_url Sample.env Sample.good_chain (workItem Sample.env)
             "m1" "a@b.com" "hello" (initial_world ∅)
             Sample.token_response _ (JStr "tok") Sample.base_uri
             eq_refl ltac:(simpl; lia) eq_refl eq_refl eq_refl eq_refl
             ltac:(discriminate)).
  reflexivity.
Defined.

(** The claim as first stated puts a slash between the base URI and
    [services]: with the provider's base URI, which ends in a slash, no
    request goes to the URL built that way. *)
Lemma C5_slash_counterexample :
  fst (sendEmail Sample.env Sample.good_chain (workItem Sample.env)
         "m1" "a@b.com" "hello" (initial_world ∅)) = Resolved (JNum 4711)
  /\ ~ In (Sample.base_uri +:+ "/services/" +:+ version +:+ "/interactions/work-items")
          (map req_url
             (requests (snd (sendEmail Sample.env Sample.good_chain
                               (workItem Sample.env)
                               "m1" "a@b.com" "hello" (initial_world ∅))))).
Proof.
  split; [vm_compute; reflexivity|].
  vm_compute. intros [H | [H | []]]; discriminate H.
Qed.

(** ** The batch *)

Section PromiseAll.

Context {A : Type}.
Implicit Types (ps : list (nat * JsResult A)).

Lemma first_rejection_none ps :
  Forall (fun p => is_resolved (snd p) = true) ps ->
  first_rejection ps = None /\ length (resolved_values ps) = length ps.
Proof.
  induction 1 as [|[t [a|e]] ps Hp _ [IH1 IH2]]; simpl in *;
    try discriminate; auto.
Qed.

Lemma first_rejection_member ps t e :
  first_rejection ps = Some (t, e) -> In (t, Rejected e) ps.
Proof.
  revert t e. induction ps as [|[t0 [a|e0]] ps IH]; intros t e H; simpl in H.
  - discriminate.
  - right. auto.
  - destruct (first_rejection ps) as [[t' e']|].
    + destruct (t' <? t0)%nat; inversion H; subst; [right; auto | now left].
    + inversion H; subst. now left.
Qed.

Lemma first_rejection_some ps t e :
  In (t, Rejected e) ps -> first_rejection ps <> None.
Proof.
  induction ps as [|[t0 [a|e0]] ps IH]; intros Hin; simpl in *.
  - contradiction.
  - destruct Hin as [Hin|Hin]; [discriminate|auto].
  - destruct (first_rejection ps) as [[t' e']|]; [|discriminate].
    destruct (t' <? t0)%nat; discriminate.
Qed.

End PromiseAll.

Section Batch.

Variable env : Env.

(** [processMessage] step by step. *)
Lemma processMessage_steps c id w :
  processMessage env c id w =
  match getMessage env c id w with
  | (Resolved msg, w1) =>
      match sendEmail env c (workItem env) (mm_id msg) (mm_from msg)
              (mm_payload msg) w1 with
      | (Resolved contactId, w2) =>
          (Resolved {| msgId := id; contactId := contactId |}, w2)
      | (Rejected e, w2) => (Rejected e, w2)
      end
  | (Rejected e, w1) => (Rejected e, w1)
  end.
Proof.
  unfold processMessage, then_, resolve.
  destruct (getMessage env c id w) as [[msg|e] w1]; [|reflexivity].
  destruct (sendEmail env c (workItem env) _ _ _ w1) as [[v|e] w2]; reflexivity.
Qed.

Lemma processMessage_msgId c id w p w' :
  processMessage env c id w = (Resolved p, w') -> msgId p = id.
Proof.
  rewrite processMessage_steps.
  destruct (getMessage env c id w) as [[msg|e] w1]; [|discriminate].
  destruct (sendEmail env c (workItem env) _ _ _ w1) as [[v|e] w2];
    [|discriminate].
  intros H. inversion H. reflexivity.
Qed.

Lemma launch_all_resolved w : forall msgs i,
  (forall k msg, msgs !! k = Some msg ->
     is_resolved (fst (processMessage env (chain env (i + k)) (ref_id msg) w)) = true) ->
  Forall (fun p => is_resolved (snd p) = true)
    (settle_ticks env i (launch_from env i w msgs))
  /\ map msgId (resolved_values (settle_ticks env i (launch_from env i w msgs)))
     = map ref_id msgs.
Proof.
  induction msgs as [|msg msgs IH]; intros i H; simpl.
  - split; [constructor | reflexivity].
  - destruct (IH (S i)) as [IH1 IH2].
    { intros k m Hk. replace (S i + k) with (i + S k) by lia. now apply H. }
    pose proof (H 0 msg eq_refl) as H0. rewrite Nat.add_0_r in H0.
    destruct (processMessage env (chain env i) (ref_id msg) w) as [[p|e] wi] eqn:Hp;
      simpl in *; [|discriminate].
    split; [constructor; auto|].
    rewrite IH2, (processMessage_msgId _ _ _ _ _ Hp). reflexivity.
Qed.

Lemma launch_rejected_member w : forall msgs i k msg e wk,
  msgs !! k = Some msg ->
  processMessage env (chain env (i + k)) (ref_id msg) w = (Rejected e, wk) ->
  In (chain_tick (chain env (i + k)), Rejected e)
    (settle_ticks env i (launch_from env i w msgs)).
Proof.
  induction msgs as [|m msgs IH]; intros i k msg e wk Hk Hp; [discriminate|].
  destruct k as [|k]; simpl in *.
  - inversion Hk; subst. rewrite Nat.add_0_r in *. rewrite Hp. now left.
  - right. replace (i + S k) with (S i + k) in * by lia. eapply IH; eauto.
Qed.

Lemma launch_member_rejected w : forall msgs i t e,
  In (t, Rejected e) (settle_ticks env i (launch_from env i w msgs)) ->
  exists k msg,
    msgs !! k = Some msg
    /\ fst (processMessage env (chain env (i + k)) (ref_id msg) w) = Rejected e.
Proof.
  induction msgs as [|m msgs IH]; intros i t e Hin; simpl in *; [contradiction|].
  destruct Hin as [Hin|Hin].
  - exists 0, m. rewrite Nat.add_0_r. inversion Hin. auto.
  - destruct (IH _ _ _ Hin) as (k & msg & Hk & Hp).
    exists (S k), msg. replace (i + S k) with (S i + k) by lia. auto.
Qed.

(** *** One chain against the outside world *)

Lemma not_2xx r : response_ok r = false -> ~ (200 <= status r < 300)%Z.
Proof. intros H R. apply response_ok_spec in R. congruence. Qed.

(** The outcome of [sendEmail], whatever it logs. *)
Lemma sendEmail_outcome c self id from payload w :
  fst (sendEmail env c self id from payload w) =
  rbind (fst (getToken env c self w)) (fun data =>
  rbind (js_get data "access_token") (fun token =>
  rbind (js_get data "resource_server_base_uri") (fun base =>
  rbind (chain_fetch c (post_request env self token base id from payload))
    (fun resp =>
       if response_ok resp
       then rbind (json resp) (fun j => js_get j "contactId")
       else Rejected (ApiError (status resp)))))).
Proof.
  set (w1 := record_event
               (ConsoleLog ("sendEmail() - id: " +:+ id +:+ " from: " +:+ from)) w).
  rewrite (getToken_outcome env c self w), <- (getToken_outcome env c self w1).
  unfold sendEmail, then_, catch_, console_log, console_error, emit, settle,
    resolve, reject. simpl. fold w1.
  destruct (getToken env c self w1) as [[data|e] w2]; simpl; [|reflexivity].
  destruct (js_get data "access_token") as [token|e]; simpl; [|reflexivity].
  destruct (js_get data "resource_server_base_uri") as [base|e]; simpl;
    [|reflexivity].
  unfold post_request. rewrite <- (postWorkItem_outcome env c self _ _ _ _ _ _ w2).
  destruct (postWorkItem env c self (workItemURL_of base) token id from payload
              "email" w2) as [[v|e] w3]; reflexivity.
Qed.

Lemma getToken_granted c self w tok base :
  token_granted env c self tok base ->
  exists data,
    fst (getToken env c self w) = Resolved data
    /\ js_get data "access_token" = Resolved tok
    /\ js_get data "resource_server_base_uri" = Resolved base.
Proof.
  intros (resp & j & Hf & Hs & Hj & Ht & Tt & Hu & Tu).
  exists j. rewrite getToken_outcome, Hf. simpl.
  apply response_ok_spec in Hs. rewrite Hs, Hj. simpl.
  rewrite (holding_is_complete j tok base Ht Tt Hu Tu). auto.
Qed.

Lemma getToken_fails c self w e :
  token_fails env c self e -> fst (getToken env c self w) = Rejected e.
Proof.
  intros H. rewrite getToken_outcome.
  destruct H as [e Hf|resp Hf Hs|resp e Hf Hs Hj|resp j Hf Hs Hj Hl];
    rewrite Hf; simpl.
  - reflexivity.
  - now rewrite (response_not_ok _ Hs).
  - apply response_ok_spec in Hs. now rewrite Hs, Hj.
  - apply response_ok_spec in Hs. rewrite Hs, Hj. simpl.
    now rewrite (lacking_is_incomplete j Hl).
Qed.

Lemma token_granted_or_fails c self :
  (exists tok base, token_granted env c self tok base)
  \/ exists e, token_fails env c self e.
Proof.
  destruct (chain_fetch c (token_request env self)) as [resp|e] eqn:Hf.
  - destruct (response_ok resp) eqn:Hs.
    + apply response_ok_spec in Hs.
      destruct (json resp) as [j|e] eqn:Hj.
      * destruct (has_token_and_uri_settles j) as [[|] Hc].
        -- left. destruct (complete_holds j Hc) as (tok & uri & Ht & Tt & Hu & Tu).
           exists tok, uri, resp, j. auto 10.
        -- right. exists ProtocolError.
           apply (token_document_incomplete env c self resp j Hf Hs Hj).
           now apply incomplete_lacks.
      * right. exists e. now apply (token_body_unreadable env c self resp e).
    + right. exists (ApiError (status resp)).
      apply (token_call_refused env c self resp Hf). now apply not_2xx.
  - right. exists e. now apply token_call_fails.
Qed.

(** A successful post makes [sendEmail] resolve to the answer of the post. *)
Lemma sendEmail_posted c self id from payload w contactId :
  work_item_posted env c self id from payload contactId ->
  fst (sendEmail env c self id from payload w) = Resolved contactId.
Proof.
  intros (tok & base & resp & body_ & Hg & Hf & Hs & Hj & Hv).
  rewrite sendEmail_outcome.
  destruct (getToken_granted c self w tok base Hg) as (data & -> & Ht & Hu).
  simpl. rewrite Ht, Hu. simpl. rewrite Hf. simpl.
  apply response_ok_spec in Hs. rewrite Hs, Hj. exact Hv.
Qed.

(** A failed post makes [sendEmail] reject with the error of the failure. *)
Lemma sendEmail_fails c self id from payload w e :
  post_fails env c self id from payload e ->
  fst (sendEmail env c self id from payload w) = Rejected e.
Proof.
  intros H. rewrite sendEmail_outcome.
  destruct H as [e Ht|tok base e Hg Hf|tok base resp Hg Hf Hs
                |tok base resp e Hg Hf Hs Hj|tok base resp body_ e Hg Hf Hs Hj Hv].
  - now rewrite (getToken_fails c self w e Ht).
  - destruct (getToken_granted c self w tok base Hg) as (data & -> & Ht & Hu).
    simpl. rewrite Ht, Hu. simpl. now rewrite Hf.
  - destruct (getToken_granted c self w tok base Hg) as (data & -> & Ht & Hu).
    simpl. rewrite Ht, Hu. simpl. rewrite Hf. simpl.
    now rewrite (response_not_ok _ Hs).
  - destruct (getToken_granted c self w tok base Hg) as (data & -> & Ht & Hu).
    simpl. rewrite Ht, Hu. simpl. rewrite Hf. simpl.
    apply response_ok_spec in Hs. now rewrite Hs, Hj.
  - destruct (getToken_granted c self w tok base Hg) as (data & -> & Ht & Hu).
    simpl. rewrite Ht, Hu. simpl. rewrite Hf. simpl.
    apply response_ok_spec in Hs. rewrite Hs, Hj. exact Hv.
Qed.

Lemma posted_or_fails c self id from payload :
  (exists contactId, work_item_posted env c self id from payload contactId)
  \/ exists e, post_fails env c self id from payload e.
Proof.
  destruct (token_granted_or_fails c self) as [(tok & base & Hg)|(e & Ht)].
  - destruct (chain_fetch c (post_request env self tok base id from payload))
      as [resp|e] eqn:Hf.
    + destruct (response_ok resp) eqn:Hs.
      * apply response_ok_spec in Hs.
        destruct (json resp) as [body_|e] eqn:Hj.
        -- destruct (js_get body_ "contactId") as [v|e] eqn:Hv.
           ++ left. exists v, tok, base, resp, body_. auto.
           ++ right. exists e.
              now apply (work_item_body_not_readable_as_object env c self id from
                           payload tok base resp body_ e).
        -- right. exists e.
           now apply (work_item_body_unreadable env c self id from payload
                        tok base resp e).
      * right. exists (ApiError (status resp)).
        apply (work_item_call_refused env c self id from payload tok base resp
                 Hg Hf). now apply not_2xx.
    + right. exists e.
      now apply (work_item_call_fails env c self id from payload tok base e).
  - right. exists e. now apply no_token.
Qed.

(** A chain whose fetch and post succeed resolves to the pair of the listed
    id and the answer of the post. *)
Lemma processMessage_succeeds c id w contactId :
  chain_succeeds env c id contactId ->
  fst (processMessage env c id w)
  = Resolved {| msgId := id; contactId := contactId |}.
Proof.
  intros (res & h & [Hr Hf] & Hp).
  rewrite processMessage_steps, (getMessage_with_From env c id w res h Hr Hf).
  cbv beta iota. cbn [mm_id mm_from mm_payload].
  pose proof (sendEmail_posted c (workItem env) _ _ _
                (record_event (ConsoleLog ("getMessage() - id: " +:+ id)) w)
                contactId Hp) as Hs.
  destruct (sendEmail env c (workItem env) _ _ _ _) as [r w2].
  simpl in Hs. subst r. reflexivity.
Qed.

(** A chain whose fetch or post fails rejects with the error of the
    failure. *)
Lemma processMessage_fails c id w e :
  chain_fails env c id e -> fst (processMessage env c id w) = Rejected e.
Proof.
  intros [e' Hfetch | res h e' [Hr Hf] Hp]; rewrite processMessage_steps.
  - rewrite getMessage_run.
    destruct Hfetch as [e' Hr|res Hr Hf]; rewrite Hr; simpl.
    + reflexivity.
    + unfold getMessage_then. rewrite Hf. reflexivity.
  - rewrite (getMessage_with_From env c id w res h Hr Hf).
    cbv beta iota. cbn [mm_id mm_from mm_payload].
    pose proof (sendEmail_fails c (workItem env) _ _ _
                  (record_event (ConsoleLog ("getMessage() - id: " +:+ id)) w)
                  e' Hp) as Hs.
    destruct (sendEmail env c (workItem env) _ _ _ _) as [r w2].
    simpl in Hs. subst r. reflexivity.
Qed.

Lemma chain_succeeds_or_fails c id :
  (exists contactId, chain_succeeds env c id contactId)
  \/ exists e, chain_fails env c id e.
Proof.
  destruct (chain_get c id) as [res|e] eqn:Hr.
  - destruct (find_From (headers (m_payload res))) as [h|] eqn:Hf.
    + destruct (posted_or_fails c (workItem env) (m_id res)
                  (extract_from (h_value h))
                  (decode_payload env (b_data (body (m_payload res)))))
        as [(v & Hp)|(e & Hp)].
      * left. exists v, res, h. split; [split|]; assumption.
      * right. exists e. apply (fails_at_post env c id res h e); [split|];
          assumption.
    + right. eexists. apply fails_at_fetch.
      now apply (no_From_header c id res).
  - right. exists e. apply fails_at_fetch. now apply mail_api_fails.
Qed.

(** A chain rejects only because its fetch or its post failed. *)
Lemma processMessage_rejected_inv c id w e :
  fst (processMessage env c id w) = Rejected e -> chain_fails env c id e.
Proof.
  intros H. destruct (chain_succeeds_or_fails c id) as [(v & Hs)|(e' & Hf)].
  - rewrite (processMessage_succeeds c id w v Hs) in H. discriminate.
  - rewrite (processMessage_fails c id w e' Hf) in H. now inversion H; subst.
Qed.

Lemma launch_all_succeed w (contactIds : nat -> JsVal) : forall msgs i,
  (forall k msg, msgs !! k = Some msg ->
     chain_succeeds env (chain env (i + k)) (ref_id msg) (contactIds (i + k))) ->
  first_rejection (settle_ticks env i (launch_from env i w msgs)) = None
  /\ resolved_values (settle_ticks env i (launch_from env i w msgs))
     = imap (fun k msg => {| msgId := ref_id msg;
                             contactId := contactIds (i + k) |}) msgs.
Proof.
  induction msgs as [|msg msgs IH]; intros i H; [split; reflexivity|].
  destruct (IH (S i)) as [IH1 IH2].
  { intros k m Hk. replace (S i + k) with (i + S k) by lia. now apply H. }
  pose proof (H 0 msg eq_refl) as H0. rewrite Nat.add_0_r in H0.
  pose proof (processMessage_succeeds _ _ w _ H0) as Hp.
  simpl. rewrite Hp. simpl. split; [exact IH1|].
  rewrite IH2, Nat.add_0_r. f_equal.
  apply imap_ext. intros k m _. simpl. f_equal. f_equal. lia.
Qed.

(** C3: once the inbox listing has produced [msgs].  When for every listed
    message the fetch succeeds and the post succeeds, the run resolves to
    exactly one pair per listed message, in order, each made of the listed
    id and of the contact id that the post of that message answered.  When
    for some listed message the fetch fails or the post fails, the run
    rejects, with the error of a listed message whose fetch or post failed,
    and yields no list of pairs. *)
Theorem C3_batch_all_or_nothing w0 w1 msgs :
  then_ (authorize env) (fun _ => getMessageList env) w0
  = (Resolved (Some msgs), w1) ->
  (forall contactIds : nat -> JsVal,
     (forall k msg, msgs !! k = Some msg ->
        chain_succeeds env (chain env k) (ref_id msg) (contactIds k)) ->
     exists pairs,
       run env w0 = Resolved pairs
       /\ length pairs = length msgs
       /\ pairs = imap (fun k msg => {| msgId := ref_id msg;
                                        contactId := contactIds k |}) msgs)
  /\ (forall k msg e,
        msgs !! k = Some msg ->
        chain_fails env (chain env k) (ref_id msg) e ->
        exists e' k' msg',
          run env w0 = Rejected e'
          /\ msgs !! k' = Some msg'
          /\ chain_fails env (chain env k') (ref_id msg') e').
Proof.
  intros Hlist. unfold run. rewrite Hlist. unfold batch, Promise_all. split.
  - intros contactIds Hall.
    destruct (launch_all_succeed w1 contactIds msgs 0 Hall) as [-> Hvals].
    eexists. split; [reflexivity|]. rewrite Hvals.
    split; [apply length_imap | reflexivity].
  - intros k msg e Hk Hfail.
    pose proof (processMessage_fails _ _ w1 _ Hfail) as Hp.
    destruct (processMessage env (chain env k) (ref_id msg) w1) as [r wk] eqn:Hrun.
    simpl in Hp. subst r.
    pose proof (launch_rejected_member w1 msgs 0 k msg e wk Hk Hrun) as Hin.
    apply first_rejection_some in Hin.
    destruct (first_rejection (settle_ticks env 0 (launch_from env 0 w1 msgs)))
      as [[t e']|] eqn:Hfirst; [|contradiction].
    apply first_rejection_member in Hfirst.
    destruct (launch_member_rejected _ _ _ _ _ Hfirst) as (k' & msg' & Hk' & Hp').
    exists e', k', msg'. split; [reflexivity|]. split; [exact Hk'|].
    now apply (processMessage_rejected_inv _ _ w1).
Qed.

(** C9: [getMessageList] resolves to the [messages] field of the response
    as it stands; when that field is absent the driver's [forEach] throws, so
    the run rejects with a [TypeError] where an empty inbox would call for
    an empty list of pairs. *)
Theorem C9_empty_inbox_fails :
  (forall res w,
     messages_list env = Resolved res ->
     exists w', getMessageList env w = (Resolved (messages res), w'))
  /\ (forall res w0 w1,
        authorize env w0 = (Resolved tt, w1) ->
        messages_list env = Resolved res ->
        messages res = None ->
        exists e,
          run env w0 = Rejected e
          /\ err_name e = "TypeError"
          /\ main env w0 = PrintedError e).
Proof.
  split.
  - intros res w Hl. unfold getMessageList, then_, catch_, console_log, emit,
      settle, resolve. simpl. rewrite Hl. eexists. reflexivity.
  - intros res w0 w1 Ha Hl Hm. unfold main, run, then_. rewrite Ha.
    unfold getMessageList, then_, catch_, console_log, emit, settle, resolve.
    simpl. rewrite Hl, Hm. simpl. eexists. repeat split; reflexivity.
Qed.

End Batch.

Lemma C3_batch_example :
  (exists pairs,
     run Sample.env (initial_world Sample.fs_with_token) = Resolved pairs
     /\ length pairs = 2
     /\ pairs = [{| msgId := "m1"; contactId := JNum 4711 |};
                 {| msgId := "m2"; contactId := JNum 4711 |}])
  /\ (exists e k msg,
        run Faults.env_second_post_refused (initial_world Sample.fs_with_token)
        = Rejected e
        /\ [mkMsgRef "m1" "t1"; mkMsgRef "m2" "t2"] !! k = Some msg
        /\ chain_fails Faults.env_second_post_refused
             (chain Faults.env_second_post_refused k) (ref_id msg) e).
Proof.
  split.
  - refine (proj1 (C3_batch_all_or_nothing Sample.env
                     (initial_world Sample.fs_with_token) _
                     [mkMsgRef "m1" "t1"; mkMsgRef "m2" "t2"] _)
              (fun _ => JNum 4711) _).
    + vm_compute. reflexivity.
    + intros k msg Hk.
      assert (Hid : ref_id msg = "m1" \/ ref_id msg = "m2").
      { destruct k as [|[|k]]; inversion Hk; subst; auto. }
      exists (Sample.message (ref_id msg)
                [mkHeader "To" "me@x.org"; mkHeader "From" Sample.from_header]
                (Some "aGVsbG8")),
        (mkHeader "From" Sample.from_header).
      split; [split; reflexivity|].
      exists (JStr "tok"), (JStr Sample.base_uri), Sample.post_response,
        (JObj [("contactId", JNum 4711)]).
      split.
      { exists Sample.token_response, (JObj [("access_token", JStr "tok");
                 ("resource_server_base_uri", JStr Sample.base_uri)]).
        repeat split; try reflexivity; simpl; lia. }
      repeat split; try reflexivity; simpl; lia.
  - destruct (proj2 (C3_batch_all_or_nothing Faults.env_second_post_refused
                       (initial_world Sample.fs_with_token) _
                       [mkMsgRef "m1" "t1"; mkMsgRef "m2" "t2"]
                       ltac:(vm_compute; reflexivity))
                1 (mkMsgRef "m2" "t2") (ApiError 500) eq_refl)
      as (e & k & msg & Hrun & Hk & Hfail).
    + apply (fails_at_post Faults.env_second_post_refused Faults.refused_post_chain
               "m2"
               (Sample.message "m2"
                  [mkHeader "To" "me@x.org"; mkHeader "From" Sample.from_header]
                  (Some "aGVsbG8"))
               (mkHeader "From" Sample.from_header));
        [split; reflexivity|].
      apply (work_item_call_refused Faults.env_second_post_refused
               Faults.refused_post_chain _ _ _ _ (JStr "tok")
               (JStr Sample.base_uri) Faults.overloaded);
        [|reflexivity|simpl; lia].
      exists Sample.token_response, (JObj [("access_token", JStr "tok");
               ("resource_server_base_uri", JStr Sample.base_uri)]).
      repeat split; try reflexivity; simpl; lia.
    + exists e, k, msg. auto.
Defined.

Lemma C9_empty_inbox_example :
  exists e,
    run Sample.env_empty_inbox (initial_world Sample.fs_with_token) = Rejected e
    /\ err_name e = "TypeError".
Proof.
  destruct (proj2 (C9_empty_inbox_fails Sample.env_empty_inbox)
              {| messages := None |} (initial_world Sample.fs_with_token) _
              ltac:(vm_compute; reflexivity) eq_refl eq_refl)
    as (e & Hrun & Hname & _).
  exists e. split; assumption.
Defined.

(** ** [authorize] *)

Lemma count_events_app p fs evs evs' g :
  count_events p {| files := fs; events := evs ++ evs'; gmail := g |} =
  count_events p {| files := fs; events := evs; gmail := g |}
  + length (List.filter p evs').
Proof. unfold count_events. simpl. now rewrite List.filter_app, length_app. Qed.

Section Authorize.

Variable env : Env.

Ltac auth_steps :=
  unfold authorize, authorize_then, _getNewToken, _ask, writeFileAsync,
    setCredentials, set_oAuth2Client, readFileAsync, this, then_, catch_,
    console_log, console_error, emit, settle, resolve, reject, record_event;
  simpl.

Lemma prompts_after_logs w fs g l1 l2 l3 l4 :
  prompts {| files := fs;
             events := (((events w ++ [ConsoleLog l1]) ++ [ConsoleLog l2])
                        ++ [ConsoleLog l3]) ++ [ConsoleLog l4];
             gmail := g |}
  = prompts w.
Proof.
  unfold prompts, count_events. simpl.
  rewrite !List.filter_app. simpl. rewrite !app_nil_r. reflexivity.
Qed.

(** The token file is there and parses: the token is applied, nobody is
    asked, nothing is written. *)
Lemma authorize_token_present w cred client t tok :
  files w !! credentialFile (gmail w) = Some (Regular cred) ->
  make_client env cred = Resolved client ->
  files w !! tokenFile (gmail w) = Some (Regular t) ->
  JSON_parse env t = Resolved tok ->
  authorize env w =
  (Resolved tt,
   {| files := files w;
      events := events w ++ [ConsoleLog "authorize()"];
      gmail := {| credentialFile := credentialFile (gmail w);
                  tokenFile := tokenFile (gmail w);
                  oAuth2Client :=
                    Some {| client_id := client_id client;
                            client_secret := client_secret client;
                            redirect_uri := redirect_uri client;
                            credentials := Some tok |} |} |}).
Proof.
  intros Hc Hm Ht Hp. auth_steps. rewrite Hc. simpl. rewrite Hm. simpl.
  rewrite Ht. simpl. rewrite Hp. reflexivity.
Qed.

(** The events of the interactive handshake up to the operator's answer. *)
Lemma authorize_exchange_refused w cred client e :
  files w !! credentialFile (gmail w) = Some (Regular cred) ->
  make_client env cred = Resolved client ->
  files w !! tokenFile (gmail w) = None ->
  oauth_getToken env client (operator_reply env (prompts w)) = Rejected e ->
  authorize env w =
  (Rejected e,
   {| files := files w;
      events :=
        events w ++
        [ConsoleLog "authorize()"; ConsoleLog "_getNewToken()";
         ConsoleLog ("Authorize this app by visiting this url: "
                     +:+ generateAuthUrl env client);
         ConsoleLog "_ask()";
         Question "Enter the code from that page here: ";
         ConsoleError ("_getNewToken() - " +:+ err_message e)];
      gmail := {| credentialFile := credentialFile (gmail w);
                  tokenFile := tokenFile (gmail w);
                  oAuth2Client := Some client |} |}).
Proof.
  intros Hc Hm Ht Hx. auth_steps. rewrite Hc. simpl. rewrite Hm. simpl.
  rewrite Ht. simpl. rewrite prompts_after_logs, Hx.
  repeat (rewrite <- app_assoc; simpl). reflexivity.
Qed.

Lemma authorize_exchange_accepted w cred client tok :
  files w !! credentialFile (gmail w) = Some (Regular cred) ->
  make_client env cred = Resolved client ->
  files w !! tokenFile (gmail w) = None ->
  oauth_getToken env client (operator_reply env (prompts w)) = Resolved tok ->
  let evs :=
    events w ++
    [ConsoleLog "authorize()"; ConsoleLog "_getNewToken()";
     ConsoleLog ("Authorize this app by visiting this url: "
                 +:+ generateAuthUrl env client);
     ConsoleLog "_ask()";
     Question "Enter the code from that page here: ";
     WriteFile (tokenFile (gmail w)) (JSON_stringify env tok)] in
  let g :=
    {| credentialFile := credentialFile (gmail w);
       tokenFile := tokenFile (gmail w);
       oAuth2Client :=
         Some {| client_id := client_id client;
                 client_secret := client_secret client;
                 redirect_uri := redirect_uri client;
                 credentials := Some tok |} |} in
  authorize env w =
  match write_fault env (tokenFile (gmail w)) with
  | None =>
      (Resolved tt,
       {| files := <[tokenFile (gmail w) := Regular (JSON_stringify env tok)]>
                     (files w);
          events := evs; gmail := g |})
  | Some (OpenFails code description) =>
      (Rejected (fs_error code description (tokenFile (gmail w))),
       {| files := files w;
          events :=
            evs ++ [ConsoleError
                      ("_getNewToken() - "
                       +:+ err_message
                             (fs_error code description (tokenFile (gmail w))))];
          gmail := g |})
  | Some (WriteFails code description written) =>
      (Rejected (fs_write_error code description),
       {| files := <[tokenFile (gmail w) :=
                       Regular (substring 0 written (JSON_stringify env tok))]>
                     (files w);
          events :=
            evs ++ [ConsoleError
                      ("_getNewToken() - "
                       +:+ err_message (fs_write_error code description))];
          gmail := g |})
  end.
Proof.
  intros Hc Hm Ht Hx. auth_steps. rewrite Hc. simpl. rewrite Hm. simpl.
  rewrite Ht. simpl. rewrite prompts_after_logs, Hx.
  destruct (write_fault env (tokenFile (gmail w)))
    as [[code description|code description written]|];
    simpl; repeat (rewrite <- app_assoc; simpl); reflexivity.
Qed.

Ltac count_steps :=
  unfold prompts, writes, count_events; simpl;
  rewrite ?List.filter_app, ?length_app; simpl; lia.

(** C1: with a valid credential file.  When the token file is absent,
    [authorize] asks the operator exactly once; it writes the token file
    exactly once, with the serialized token, when the provider accepts the
    operator's code, and rejects without any write when the provider refuses
    it.  When the token file is present and parses, [authorize] resolves
    without asking or writing and applies the persisted token to the
    session. *)
Theorem C1_authorize_prompts_and_writes w cred client :
  files w !! credentialFile (gmail w) = Some (Regular cred) ->
  make_client env cred = Resolved client ->
  (files w !! tokenFile (gmail w) = None ->
   prompts (snd (authorize env w)) = prompts w + 1
   /\ (forall tok,
         oauth_getToken env client (operator_reply env (prompts w)) = Resolved tok ->
         writes (snd (authorize env w)) = writes w + 1
         /\ In (WriteFile (tokenFile (gmail w)) (JSON_stringify env tok))
               (events (snd (authorize env w)))
         /\ (exists c, oAuth2Client (gmail (snd (authorize env w))) = Some c
                       /\ credentials c = Some tok)
         /\ (write_fault env (tokenFile (gmail w)) = None ->
             fst (authorize env w) = Resolved tt
             /\ files (snd (authorize env w)) !! tokenFile (gmail w)
                = Some (Regular (JSON_stringify env tok))))
   /\ (forall e,
         oauth_getToken env client (operator_reply env (prompts w)) = Rejected e ->
         writes (snd (authorize env w)) = writes w
         /\ fst (authorize env w) = Rejected e))
  /\ (forall t tok,
        files w !! tokenFile (gmail w) = Some (Regular t) ->
        JSON_parse env t = Resolved tok ->
        fst (authorize env w) = Resolved tt
        /\ prompts (snd (authorize env w)) = prompts w
        /\ writes (snd (authorize env w)) = writes w
        /\ exists c, oAuth2Client (gmail (snd (authorize env w))) = Some c
                     /\ credentials c = Some tok).
Proof.
  intros Hc Hm. split.
  - intros Ht.
    destruct (oauth_getToken env client (operator_reply env (prompts w)))
      as [tok|e] eqn:Hx.
    + pose proof (authorize_exchange_accepted w cred client tok Hc Hm Ht Hx) as Ha.
      simpl in Ha. rewrite Ha. clear Ha.
      destruct (write_fault env (tokenFile (gmail w)))
        as [[code description|code description written]|]; simpl.
      * split; [count_steps|]. split; [|intros e He; discriminate He].
        intros tok' E. inversion E; subst tok'.
        split; [count_steps|]. split.
        { rewrite !in_app_iff. simpl. tauto. }
        split; [eexists; split; reflexivity|]. intros Hw; discriminate Hw.
      * split; [count_steps|]. split; [|intros e He; discriminate He].
        intros tok' E. inversion E; subst tok'.
        split; [count_steps|]. split.
        { rewrite !in_app_iff. simpl. tauto. }
        split; [eexists; split; reflexivity|]. intros Hw; discriminate Hw.
      * split; [count_steps|]. split; [|intros e He; discriminate He].
        intros tok' E. inversion E; subst tok'.
        split; [count_steps|]. split.
        { rewrite !in_app_iff. simpl. tauto. }
        split; [eexists; split; reflexivity|]. intros _.
        split; [reflexivity|]. apply lookup_insert_eq.
    + rewrite (authorize_exchange_refused w cred client e Hc Hm Ht Hx). simpl.
      split; [count_steps|]. split; [intros tok Ht'; discriminate Ht'|].
      intros e' E. inversion E; subst e'. split; [count_steps|reflexivity].
  - intros t tok Ht Hp.
    rewrite (authorize_token_present w cred client t tok Hc Hm Ht Hp). simpl.
    split; [reflexivity|]. split; [count_steps|]. split; [count_steps|].
    eexists; split; reflexivity.
Qed.

(** C2, at the failing input: when the credential file itself is missing
    (and no client was built before), the [ENOENT] of that load is taken for
    a missing token file; [authorize] enters [_getNewToken], which throws on
    the absent client.  The caller receives that [TypeError], not the load
    failure, and nothing is written to the error console. *)
Theorem C2_missing_credential_file_diverted w :
  files w !! credentialFile (gmail w) = None ->
  oAuth2Client (gmail w) = None ->
  authorize env w =
  (Rejected (TypeError "Cannot read property 'generateAuthUrl' of null"),
   {| files := files w;
      events := events w ++ [ConsoleLog "authorize()"; ConsoleLog "_getNewToken()"];
      gmail := gmail w |})
  /\ fst (readFileAsync (credentialFile (gmail w)) w)
     = Rejected (fs_error "ENOENT" "no such file or directory"
                   (credentialFile (gmail w)))
  /\ rejection (fst (authorize env w))
     <> rejection (fst (readFileAsync (credentialFile (gmail w)) w))
  /\ count_events is_console_error (snd (authorize env w))
     = count_events is_console_error w.
Proof.
  intros Hc Ho.
  assert (Ha : authorize env w =
    (Rejected (TypeError "Cannot read property 'generateAuthUrl' of null"),
     {| files := files w;
        events := events w ++ [ConsoleLog "authorize()"; ConsoleLog "_getNewToken()"];
        gmail := gmail w |})).
  { auth_steps. rewrite Hc. simpl. rewrite Ho. simpl.
    rewrite <- app_assoc. reflexivity. }
  assert (Hr : fst (readFileAsync (credentialFile (gmail w)) w)
               = Rejected (fs_error "ENOENT" "no such file or directory"
                             (credentialFile (gmail w)))).
  { unfold readFileAsync. rewrite Hc. reflexivity. }
  rewrite Ha, Hr. simpl. repeat split; [discriminate | count_steps].
Qed.

(** Every failure of the chain whose code is not [ENOENT] reaches the caller
    as it is, after one line on the error console. *)
Lemma authorize_other_failure_propagates w e w' :
  authorize_then env (gmail w) (record_event (ConsoleLog "authorize()") w)
  = (Rejected e, w') ->
  has_code e "ENOENT" = false ->
  authorize env w =
  (Rejected e, record_event (ConsoleError ("authorize() - " +:+ err_message e)) w').
Proof.
  intros Hb Hcode.
  unfold authorize, then_, catch_, console_log, console_error, emit, this,
    reject. simpl.
  change (gmail (record_event (ConsoleLog "authorize()") w)) with (gmail w).
  rewrite Hb, Hcode. reflexivity.
Qed.

End Authorize.

Lemma C1_authorize_example :
  prompts (snd (authorize Sample.env (initial_world Sample.fs_credentials_only))) = 1
  /\ writes (snd (authorize Sample.env (initial_world Sample.fs_credentials_only))) = 1
  /\ prompts (snd (authorize Sample.env (initial_world Sample.fs_with_token))) = 0
  /\ writes (snd (authorize Sample.env (initial_world Sample.fs_with_token))) = 0.
Proof.
  destruct (C1_authorize_prompts_and_writes Sample.env
              (initial_world Sample.fs_credentials_only)
              (Sample.stringify Sample.credentials_json)
              {| client_id := JStr "cid"; client_secret := JStr "shh";
                 redirect_uri := JStr "urn:ietf:wg:oauth:2.0:oob";
                 credentials := None |}
              ltac:(vm_compute; reflexivity) eq_refl) as [Habsent _].
  destruct (Habsent ltac:(vm_compute; reflexivity)) as (Hp & Hok & _).
  destruct (Hok Sample.token_json eq_refl) as (Hw & _).
  destruct (C1_authorize_prompts_and_writes Sample.env
              (initial_world Sample.fs_with_token)
              (Sample.stringify Sample.credentials_json)
              {| client_id := JStr "cid"; client_secret := JStr "shh";
                 redirect_uri := JStr "urn:ietf:wg:oauth:2.0:oob";
                 credentials := None |}
              ltac:(vm_compute; reflexivity) eq_refl) as [_ Hpresent].
  destruct (Hpresent (Sample.stringify Sample.token_json) Sample.token_json
              ltac:(vm_compute; reflexivity) eq_refl) as (_ & Hp' & Hw' & _).
  rewrite Hp, Hw, Hp', Hw'. repeat split.
Defined.

(** The claim as first stated promises one token write whenever the token
    file is absent: here the credential file is valid, the token file is
    absent, the operator is asked once, the provider refuses the code, and
    nothing is written. *)
Lemma C1_refused_code_counterexample :
  files (initial_world Sample.fs_credentials_only) !! CREDENTIAL_FILE
  = Some (Regular (Sample.stringify Sample.credentials_json))
  /\ is_resolved (make_client Sample.env_refused
                    (Sample.stringify Sample.credentials_json)) = true
  /\ files (initial_world Sample.fs_credentials_only) !! TOKEN_FILE = None
  /\ prompts (snd (authorize Sample.env_refused
                     (initial_world Sample.fs_credentials_only))) = 1
  /\ writes (snd (authorize Sample.env_refused
                    (initial_world Sample.fs_credentials_only))) = 0
  /\ writes (snd (authorize Sample.env_refused
                    (initial_world Sample.fs_credentials_only))) <> 1.
Proof.
  vm_compute. repeat split. discriminate.
Qed.

Lemma C2_missing_credential_file_example :
  authorize Sample.env (initial_world ∅) =
  (Rejected (TypeError "Cannot read property 'generateAuthUrl' of null"),
   {| files := ∅;
      events := [ConsoleLog "authorize()"; ConsoleLog "_getNewToken()"];
      gmail := Gmail_constructor CREDENTIAL_FILE TOKEN_FILE |}).
Proof.
  exact (proj1 (C2_missing_credential_file_diverted Sample.env (initial_world ∅)
                  eq_refl eq_refl)).
Defined.

(** * Further properties of the code *)

(** ** [getLabelId] *)

Lemma find_first {T} (p : T -> bool) (pre : list T) (x : T) (post : list T) :
  (forall o, In o pre -> p o = false) -> p x = true ->
  List.find p (pre ++ x :: post) = Some x.
Proof.
  intros Hpre Hx. induction pre as [|y pre IH]; simpl.
  - now rewrite Hx.
  - rewrite (Hpre y (or_introl eq_refl)). apply IH.
    intros o Ho. apply Hpre. now right.
Qed.

Lemma find_nothing {T} (p : T -> bool) (l : list T) :
  List.find p l = None <-> forall o, In o l -> p o = false.
Proof.
  induction l as [|y l IH]; simpl.
  - split; [intros _ o [] | reflexivity].
  - destruct (p y) eqn:Hy.
    + split; [discriminate|]. intros H. rewrite (H y (or_introl eq_refl)) in Hy.
      discriminate.
    + rewrite IH. split.
      * intros H o [<-|Ho]; auto.
      * intros H o Ho. apply H. now right.
Qed.

Section GetLabelId.

Variables (labels_list : JsResult LabelsData) (name : string).

Lemma getLabelId_run w :
  getLabelId labels_list name w =
  let w1 := record_event (ConsoleLog ("getLabelId() - name: " +:+ name)) w in
  match rbind labels_list (getLabelId_then name) with
  | Resolved id => (Resolved id, w1)
  | Rejected e =>
      (Rejected e,
       record_event (ConsoleError ("getLabelId() - " +:+ err_message e)) w1)
  end.
Proof.
  unfold getLabelId, then_, catch_, console_log, console_error, emit, settle,
    reject. simpl.
  destruct labels_list as [res|e]; simpl; [|reflexivity].
  destruct (getLabelId_then name res); reflexivity.
Qed.

(** X1: among several labels the first one whose name is exactly [name]
    decides: [getLabelId] resolves to its id, whatever follows it in the
    list, and writes one log line. *)
Theorem getLabelId_first_match w res pre label post :
  labels_list = Resolved res ->
  labels res = Some (pre ++ label :: post) ->
  (forall o, In o pre -> l_name o <> name) ->
  l_name label = name ->
  getLabelId labels_list name w =
  (Resolved (l_id label),
   record_event (ConsoleLog ("getLabelId() - name: " +:+ name)) w).
Proof.
  intros Hl Hls Hpre Hn. rewrite getLabelId_run, Hl. simpl.
  unfold getLabelId_then. rewrite Hls.
  rewrite (find_first _ pre label post); [reflexivity| |].
  - intros o Ho. destruct (String.eqb_spec (l_name o) name); [|reflexivity].
    now apply Hpre in Ho.
  - now apply String.eqb_eq.
Qed.

(** X2: on a label list, [getLabelId] rejects with [label not found] exactly
    when no label carries the name (an empty list included), and then the
    error console receives that message. *)
Theorem getLabelId_not_found_iff w res ls :
  labels_list = Resolved res ->
  labels res = Some ls ->
  (fst (getLabelId labels_list name w) = Rejected (Error_ "label not found")
   <-> forall o, In o ls -> l_name o <> name)
  /\ ((forall o, In o ls -> l_name o <> name) ->
      events (snd (getLabelId labels_list name w)) =
      events w ++ [ConsoleLog ("getLabelId() - name: " +:+ name);
                   ConsoleError "getLabelId() - label not found"]).
Proof.
  intros Hl Hls. rewrite getLabelId_run, Hl. simpl.
  unfold getLabelId_then. rewrite Hls.
  assert (Hiff : List.find (fun o => String.eqb (l_name o) name) ls = None
                 <-> forall o, In o ls -> l_name o <> name).
  { rewrite find_nothing. split; intros H o Ho; specialize (H o Ho).
    - now apply String.eqb_neq.
    - now apply String.eqb_neq. }
  destruct (List.find (fun o => String.eqb (l_name o) name) ls) as [l|] eqn:Hf;
    simpl.
  - split.
    + split; [discriminate|]. intros H. apply Hiff in H. discriminate.
    + intros H. apply Hiff in H. discriminate.
  - split.
    + split; [intros _; now apply Hiff | reflexivity].
    + intros _. rewrite <- app_assoc. reflexivity.
Qed.

End GetLabelId.

Lemma getLabelId_first_match_example :
  fst (getLabelId
         (Resolved {| labels := Some [mkLabel "Label_1" "Work"; mkLabel "INBOX" "INBOX";
                                      mkLabel "Label_7" "INBOX"] |})
         "INBOX" (initial_world ∅))
  = Resolved "INBOX".
Proof.
  rewrite (getLabelId_first_match _ "INBOX" (initial_world ∅)
             {| labels := Some [mkLabel "Label_1" "Work"; mkLabel "INBOX" "INBOX";
                                mkLabel "Label_7" "INBOX"] |}
             [mkLabel "Label_1" "Work"] (mkLabel "INBOX" "INBOX")
             [mkLabel "Label_7" "INBOX"] eq_refl eq_refl).
  - reflexivity.
  - intros o [<-|[]]. discriminate.
  - reflexivity.
Defined.

Lemma getLabelId_not_found_example :
  fst (getLabelId (Resolved {| labels := Some [mkLabel "Label_1" "Work"] |})
         "inbox" (initial_world ∅))
  = Rejected (Error_ "label not found").
Proof.
  apply (proj1 (getLabelId_not_found_iff _ "inbox" (initial_world ∅)
                  {| labels := Some [mkLabel "Label_1" "Work"] |}
                  [mkLabel "Label_1" "Work"] eq_refl eq_refl)).
  intros o [<-|[]]. discriminate.
Defined.

(** ** The address extraction of [getMessage] *)

Section Extraction.

Implicit Types (s w m rest pre post : list ascii).

Lemma addr_match_here_stops s m rest :
  match_here addr_re s = Some (m, rest) -> stops addr_class rest.
Proof.
  unfold match_here.
  destruct (rmatch addr_re s Some) as [rest0|] eqn:R; [|discriminate].
  intros H. injection H as _ Hr. subst rest0. simpl in R.
  destruct (plus_sound _ _ _ _ R) as (a & s1 & _ & _ & _ & R1).
  destruct s1 as [|x s2]; [discriminate|].
  destruct (Ascii.eqb x "@"); [|discriminate].
  destruct (plus_sound _ _ _ _ R1) as (b & s3 & _ & _ & _ & R2).
  destruct s3 as [|y s4]; [discriminate|].
  destruct (Ascii.eqb y "."); [|discriminate].
  exact (plus_all_stops _ _ _ R2).
Qed.

Lemma address_shaped_cons x m :
  addr_class x = true -> address_shaped m -> address_shaped (x :: m).
Proof.
  intros Hx (a & b & c & -> & Ha & Hb & Hc & Fa & Fb & Fc).
  exists (x :: a), b, c. simpl. rewrite Hx, Fa. repeat split; auto; discriminate.
Qed.

Lemma exec_addr_of_address m :
  address_shaped m -> exists rest, exec addr_re m = Some (m, rest).
Proof.
  intros Hm. assert (Hd : m = [] ++ m ++ []) by (simpl; now rewrite app_nil_r).
  destruct (exec addr_re m) as [[m' rest]|] eqn:He.
  - exists rest. destruct (exec_sound _ _ _ _ He) as (pre & E & _ & Hh & Hleft).
    assert (Hl : length pre <= 0).
    { apply (Hleft [] m [] Hd). now apply lang_addr_re. }
    destruct pre as [|c pre]; [|simpl in Hl; lia]. simpl in E.
    assert (Hw : length m <= length m').
    { apply (addr_match_here_longest _ _ _ Hh m []); [|exact Hm].
      rewrite app_nil_r. symmetry. exact E. }
    assert (Hlen : length m = length m' + length rest).
    { rewrite E at 1. apply length_app. }
    destruct rest as [|c rest]; [|simpl in Hlen; lia].
    rewrite app_nil_r in E. subst m'. reflexivity.
  - exfalso. apply (exec_complete _ _ He [] m [] Hd). now apply lang_addr_re.
Qed.

(** X3: extracting is idempotent: what [getMessage] extracted from a header
    value is extracted unchanged when it is itself taken for a header
    value. *)
Theorem extract_from_idempotent value :
  extract_from (extract_from value) = extract_from value.
Proof.
  rewrite (extract_from_exec value).
  destruct (exec addr_re (list_ascii_of_string value)) as [[m rest]|] eqn:He.
  - destruct (exec_sound _ _ _ _ He) as (_ & _ & L & _).
    apply lang_addr_re in L.
    destruct (exec_addr_of_address m L) as (rest' & He').
    rewrite extract_from_exec, list_ascii_of_string_of_list_ascii, He'.
    reflexivity.
  - reflexivity.
Qed.

(** X4: an extracted address is never a piece of a longer run of address
    characters: in the header value it starts at the beginning or right
    after a character outside the class, and it ends at the end or right
    before such a character. *)
Theorem extract_from_delimited value :
  extract_from value <> "" ->
  exists pre post,
    list_ascii_of_string value
    = pre ++ list_ascii_of_string (extract_from value) ++ post
    /\ stops addr_class (rev pre)
    /\ stops addr_class post.
Proof.
  rewrite extract_from_exec.
  destruct (exec addr_re (list_ascii_of_string value)) as [[m rest]|] eqn:He;
    [|contradiction].
  intros _. rewrite list_ascii_of_string_of_list_ascii.
  destruct (exec_sound _ _ _ _ He) as (pre & E & L & Hh & Hleft).
  exists pre, rest. split; [exact E|]. split.
  - destruct (rev pre) as [|x rp] eqn:Hr; simpl; [exact I|].
    destruct (addr_class x) eqn:Hx; [exfalso|reflexivity].
    assert (Hpre : pre = rev rp ++ [x]).
    { rewrite <- (rev_involutive pre), Hr. reflexivity. }
    assert (Hs : address_shaped (x :: m)).
    { apply address_shaped_cons; [exact Hx | now apply lang_addr_re]. }
    apply lang_addr_re in Hs.
    specialize (Hleft (rev rp) (x :: m) rest).
    rewrite Hpre, length_app in Hleft. simpl in Hleft.
    assert (length rp + 1 <= length (rev rp)); [|rewrite length_rev in *; lia].
    rewrite length_rev in Hleft. rewrite length_rev. apply Hleft; [|exact Hs].
    rewrite E, Hpre, <- app_assoc. reflexivity.
  - exact (addr_match_here_stops _ _ _ Hh).
Qed.

End Extraction.

Lemma extract_from_delimited_example :
  exists pre post,
    list_ascii_of_string "reply to <a.b@c.org>, thanks"
    = pre ++ list_ascii_of_string "a.b@c.org" ++ post
    /\ stops addr_class (rev pre)
    /\ stops addr_class post.
Proof.
  exact (extract_from_delimited "reply to <a.b@c.org>, thanks"
           ltac:(vm_compute; discriminate)).
Defined.

(** ** Failures and results of the HTTP calls *)

Section HttpCalls.

Variables (env : Env) (c : Chain).

Ltac call_steps :=
  unfold then_, catch_, fetch, console_log, console_error, emit, settle,
    resolve, reject, json_if_ok; simpl.

Ltac norm_requests :=
  rewrite ?requests_record_event, ?app_nil_r, <- ?app_assoc; simpl.

Lemma getToken_document_readable self w j w' :
  getToken env c self w = (Resolved j, w') ->
  exists tok uri,
    js_get j "access_token" = Resolved tok
    /\ js_get j "resource_server_base_uri" = Resolved uri.
Proof.
  unfold getToken. call_steps.
  destruct (chain_fetch c (token_request env self)) as [resp|e]; simpl;
    [|discriminate].
  destruct (response_ok resp); simpl; [|discriminate].
  destruct (json resp) as [j0|e]; simpl; [|discriminate].
  destruct (has_token_and_uri j0) as [[|]|e] eqn:Hc; simpl; try discriminate.
  intros H. inversion H; subst.
  destruct (complete_holds _ Hc) as (tok & uri & Ht & _ & Hu & _). eauto.
Qed.

(** X5: a document that [getToken] resolves to always holds a truthy access
    token and a truthy base URI, and came from a 2xx response; the readers
    of these two fields in [sendEmail] therefore never fail. *)
Theorem getToken_resolved_holds_both self w j w' :
  getToken env c self w = (Resolved j, w') ->
  (exists resp,
     chain_fetch c (token_request env self) = Resolved resp
     /\ (200 <= status resp < 300)%Z /\ json resp = Resolved j)
  /\ exists tok uri,
       js_get j "access_token" = Resolved tok /\ truthy tok = true
       /\ js_get j "resource_server_base_uri" = Resolved uri
       /\ truthy uri = true.
Proof.
  unfold getToken. call_steps.
  destruct (chain_fetch c (token_request env self)) as [resp|e]; simpl;
    [|discriminate].
  destruct (response_ok resp) eqn:Hok; simpl; [|discriminate].
  destruct (json resp) as [j0|e] eqn:Hj; simpl; [|discriminate].
  destruct (has_token_and_uri j0) as [[|]|e] eqn:Hc; simpl; try discriminate.
  intros H. inversion H; subst. split.
  - exists resp. repeat split; auto; now apply response_ok_spec.
  - now apply complete_holds.
Qed.

Lemma getToken_outcome_any_world self w w' :
  fst (getToken env c self w) = fst (getToken env c self w').
Proof.
  unfold getToken. call_steps.
  destruct (chain_fetch c (token_request env self)) as [resp|e]; simpl;
    [|reflexivity].
  destruct (response_ok resp); simpl; [|reflexivity].
  destruct (json resp) as [j0|e]; simpl; [|reflexivity].
  destruct (has_token_and_uri j0) as [[|]|e]; reflexivity.
Qed.

Lemma getToken_console_errors self w e :
  fst (getToken env c self w) = Rejected e ->
  events (snd (getToken env c self w)) =
  events w ++ [ConsoleLog "getToken()"; HttpRequest (token_request env self);
               ConsoleError ("getToken() - " +:+ err_message e)].
Proof.
  unfold getToken. call_steps.
  destruct (chain_fetch c (token_request env self)) as [resp|e0]; simpl.
  - destruct (response_ok resp); simpl.
    + destruct (json resp) as [j0|e0]; simpl.
      * destruct (has_token_and_uri j0) as [[|]|e0]; simpl; intros H;
          inversion H; subst; repeat (rewrite <- app_assoc; simpl); reflexivity.
      * intros H; inversion H; subst.
        repeat (rewrite <- app_assoc; simpl); reflexivity.
    + intros H; inversion H; subst.
      repeat (rewrite <- app_assoc; simpl); reflexivity.
  - intros H; inversion H; subst.
    repeat (rewrite <- app_assoc; simpl); reflexivity.
Qed.

(** X6: when the token call fails, for whatever reason, [sendEmail] rejects
    with the same error and never posts the work item: the token request is
    the only request it issued.  The error is reported twice, once by
    [getToken] and once by [sendEmail]. *)
Theorem sendEmail_token_failure_no_post self id from payload w e :
  fst (getToken env c self w) = Rejected e ->
  fst (sendEmail env c self id from payload w) = Rejected e
  /\ requests (snd (sendEmail env c self id from payload w))
     = requests w ++ [token_request env self]
  /\ events (snd (sendEmail env c self id from payload w)) =
     events w ++
     [ConsoleLog ("sendEmail() - id: " +:+ id +:+ " from: " +:+ from);
      ConsoleLog "getToken()"; HttpRequest (token_request env self);
      ConsoleError ("getToken() - " +:+ err_message e);
      ConsoleError ("sendEmail() - " +:+ err_message e)].
Proof.
  intros Hg.
  set (w1 := record_event
               (ConsoleLog ("sendEmail() - id: " +:+ id +:+ " from: " +:+ from)) w).
  assert (Hg1 : fst (getToken env c self w1) = Rejected e).
  { rewrite (getToken_outcome_any_world self w1 w). exact Hg. }
  pose proof (getToken_console_errors self w1 e Hg1) as Hev.
  pose proof (getToken_requests env c self w1) as Hrq.
  unfold sendEmail, then_, catch_, console_log, console_error, emit, settle,
    resolve, reject. simpl. fold w1.
  destruct (getToken env c self w1) as [r w2]. simpl in *. subst r. simpl.
  split; [reflexivity|]. split.
  - rewrite requests_record_event, Hrq. unfold w1.
    rewrite requests_record_event. simpl. now rewrite !app_nil_r.
  - rewrite Hev. unfold w1. simpl. repeat (rewrite <- app_assoc; simpl).
    reflexivity.
Qed.

(** X7: when the token call and the work-item call both succeed and the
    work-item response is an object, [sendEmail] resolves to that object's
    [contactId]; the bearer token and the URL of the post come from the
    token document. *)
Theorem sendEmail_resolves_contactId self id from payload w
    resp j tok base resp' fields :
  chain_fetch c (token_request env self) = Resolved resp ->
  (200 <= status resp < 300)%Z ->
  json resp = Resolved j ->
  js_get j "access_token" = Resolved tok -> truthy tok = true ->
  js_get j "resource_server_base_uri" = Resolved base -> truthy base = true ->
  chain_fetch c (work_item_request env self (workItemURL_of base) tok
                   id from payload "email") = Resolved resp' ->
  (200 <= status resp' < 300)%Z ->
  json resp' = Resolved (JObj fields) ->
  fst (sendEmail env c self id from payload w)
  = Resolved (assoc "contactId" fields).
Proof.
  intros Hf Hs Hj Ht Tt Hu Tu Hf' Hs' Hj'.
  apply response_ok_spec in Hs. apply response_ok_spec in Hs'.
  rewrite (sendEmail_posts_after_token env c self id from payload w resp j tok base
             Hf Hs Hj (holding_is_complete j tok base Ht Tt Hu Tu) Ht Hu).
  unfold catch_, then_, resolve.
  match goal with
  | |- context [postWorkItem ?e ?c0 ?s ?u ?t ?i ?f ?p ?ty ?w0] =>
      destruct (postWorkItem_ok e c0 s u t i f p ty w0 resp' _ Hf' Hs' Hj')
        as (w3 & Hfst & _);
      destruct (postWorkItem e c0 s u t i f p ty w0) as [r w4]
  end.
  simpl in Hfst. subst r. reflexivity.
Qed.

(** X8: on a 2xx response [postWorkItem] reads [contactId] off whatever the
    body parsed to: the body [null] makes it reject with the [TypeError] of
    that read, reported on the error console, while a body that is a number,
    a string, a boolean or an array gives [undefined]; a body that fails to
    parse rejects with the parser's error. *)
Theorem postWorkItem_body_edge_cases self url token id from payload type w resp :
  chain_fetch c (work_item_request env self url token id from payload type)
  = Resolved resp ->
  (200 <= status resp < 300)%Z ->
  (json resp = Resolved JNull ->
   fst (postWorkItem env c self url token id from payload type w)
   = Rejected (TypeError "Cannot read property 'contactId' of null")
   /\ count_events is_console_error
        (snd (postWorkItem env c self url token id from payload type w))
      = count_events is_console_error w + 1)
  /\ (forall j, json resp = Resolved j ->
        (forall fields, j <> JObj fields) -> j <> JNull -> j <> JUndefined ->
        fst (postWorkItem env c self url token id from payload type w)
        = Resolved JUndefined)
  /\ (forall e, json resp = Rejected e ->
        fst (postWorkItem env c self url token id from payload type w)
        = Rejected e).
Proof.
  intros Hf Hs. apply response_ok_spec in Hs.
  unfold postWorkItem. call_steps. rewrite Hf. simpl. rewrite Hs.
  split; [|split].
  - intros Hj. rewrite Hj. simpl. split; [reflexivity|].
    unfold count_events. simpl. rewrite !List.filter_app, !length_app. simpl. lia.
  - intros j Hj Hobj Hnull Hundef. rewrite Hj. simpl.
    destruct j; simpl; try reflexivity; try contradiction.
    exfalso. now apply (Hobj fields).
  - intros e Hj. rewrite Hj. reflexivity.
Qed.

(** The requests of [sendEmail], in every run. *)
Lemma sendEmail_requests_shape self id from payload w :
  (is_resolved (fst (sendEmail env c self id from payload w)) = false
   /\ requests (snd (sendEmail env c self id from payload w))
      = requests w ++ [token_request env self])
  \/ exists url tok,
       requests (snd (sendEmail env c self id from payload w))
       = requests w ++ [token_request env self;
                        work_item_request env self url tok id from payload "email"].
Proof.
  set (w1 := record_event
               (ConsoleLog ("sendEmail() - id: " +:+ id +:+ " from: " +:+ from)) w).
  pose proof (getToken_requests env c self w1) as Hrq.
  assert (Hw1 : requests w1 = requests w).
  { unfold w1. rewrite requests_record_event. simpl. now rewrite app_nil_r. }
  unfold sendEmail, then_, catch_, console_log, console_error, emit, settle,
    resolve, reject. simpl. fold w1.
  destruct (getToken env c self w1) as [[j|e] w2] eqn:Hg; simpl in *.
  - destruct (getToken_document_readable self w1 j w2 Hg)
      as (tok & uri & Ht & Hu).
    rewrite Ht, Hu. simpl. right. exists (workItemURL_of uri), tok.
    match goal with
    | |- context [postWorkItem ?e ?c0 ?s ?u ?t ?i ?f ?p ?ty ?w0] =>
        pose proof (postWorkItem_requests e c0 s u t i f p ty w0) as Hp;
        destruct (postWorkItem e c0 s u t i f p ty w0) as [[v|err] w3]
    end; simpl in *; norm_requests; rewrite Hp, Hrq, Hw1; norm_requests;
      reflexivity.
  - left. split; [reflexivity|]. norm_requests. rewrite Hrq, Hw1. reflexivity.
Qed.

End HttpCalls.

Lemma getToken_resolved_example :
  exists tok uri,
    js_get (JObj [("access_token", JStr "tok");
                  ("resource_server_base_uri", JStr Sample.base_uri)])
      "access_token" = Resolved tok
    /\ truthy tok = true
    /\ js_get (JObj [("access_token", JStr "tok");
                     ("resource_server_base_uri", JStr Sample.base_uri)])
         "resource_server_base_uri" = Resolved uri
    /\ truthy uri = true.
Proof.
  refine (proj2 (getToken_resolved_holds_both Sample.env Sample.good_chain
                   (workItem Sample.env) (initial_world ∅) _ _ _)).
  reflexivity.
Defined.

Lemma sendEmail_token_failure_example :
  fst (sendEmail Sample.env Faults.denied_chain (workItem Sample.env)
         "m1" "a@b.com" "hello" (initial_world ∅)) = Rejected (ApiError 401)
  /\ map req_url
       (requests (snd (sendEmail Sample.env Faults.denied_chain
                         (workItem Sample.env) "m1" "a@b.com" "hello"
                         (initial_world ∅))))
     = [Sample.token_url].
Proof.
  destruct (sendEmail_token_failure_no_post Sample.env Faults.denied_chain
              (workItem Sample.env) "m1" "a@b.com" "hello" (initial_world ∅)
              (ApiError 401) eq_refl) as (Hr & Hq & _).
  rewrite Hr, Hq. split; reflexivity.
Defined.

Lemma sendEmail_resolves_example :
  fst (sendEmail Sample.env Sample.good_chain (workItem Sample.env)
         "m1" "a@b.com" "hello" (initial_world ∅)) = Resolved (JNum 4711).
Proof.
  exact (sendEmail_resolves_contactId Sample.env Sample.good_chain
           (workItem Sample.env) "m1" "a@b.com" "hello" (initial_world ∅)
           Sample.token_response _ (JStr "tok") (JStr Sample.base_uri)
           Sample.post_response [("contactId", JNum 4711)]
           eq_refl ltac:(simpl; lia) eq_refl eq_refl eq_refl eq_refl eq_refl
           eq_refl ltac:(simpl; lia) eq_refl).
Defined.

Lemma postWorkItem_null_body_example :
  fst (postWorkItem Sample.env Faults.null_body_chain (workItem Sample.env)
         "https://h/work-items" (JStr "tok") "m1" "a@b.com" "hello" "email"
         (initial_world ∅))
  = Rejected (TypeError "Cannot read property 'contactId' of null").
Proof.
  exact (proj1 (proj1 (postWorkItem_body_edge_cases Sample.env
                         Faults.null_body_chain (workItem Sample.env)
                         "https://h/work-items" (JStr "tok") "m1" "a@b.com"
                         "hello" "email" (initial_world ∅)
                         {| status := 200; json := Resolved JNull |}
                         eq_refl ltac:(simpl; lia)) eq_refl)).
Defined.

(** ** One message, end to end *)

Section OneMessage.

Variables (env : Env) (c : Chain) (id : string).

Lemma getMessage_requests w :
  requests (snd (getMessage env c id w)) = requests w.
Proof.
  rewrite getMessage_run. simpl.
  destruct (rbind (chain_get c id) (getMessage_then env)); simpl;
    rewrite ?requests_record_event; simpl; now rewrite ?app_nil_r.
Qed.


(** X10: the requests that [processMessage] sends to the ticketing API
    through [fetch], in every run (the call of the mail API inside
    [getMessage] goes through the provider's client and is not one of them):
    none when [getMessage] rejects, and the chain then rejects with the same
    error; otherwise the token request first, followed by at most one
    work-item post; when the token request is the only one, the chain has
    rejected.  A token is requested anew for each message. *)
Theorem processMessage_requests_shape w :
  (is_resolved (fst (getMessage env c id w)) = false ->
   requests (snd (processMessage env c id w)) = requests w
   /\ rejection (fst (processMessage env c id w))
      = rejection (fst (getMessage env c id w)))
  /\ (is_resolved (fst (getMessage env c id w)) = true ->
      (is_resolved (fst (processMessage env c id w)) = false
       /\ requests (snd (processMessage env c id w))
          = requests w ++ [token_request env (workItem env)])
      \/ exists url tok i f p,
           requests (snd (processMessage env c id w))
           = requests w ++ [token_request env (workItem env);
                            work_item_request env (workItem env) url tok i f p
                              "email"]).
Proof.
  pose proof (getMessage_requests w) as Hq.
  rewrite processMessage_steps.
  destruct (getMessage env c id w) as [[msg|e] w1]; simpl in *.
  - split; [discriminate|]. intros _.
    destruct (sendEmail_requests_shape env c (workItem env) (mm_id msg)
                (mm_from msg) (mm_payload msg) w1) as [[Hr Hs]|(url & tok & Hs)].
    + left.
      destruct (sendEmail env c (workItem env) (mm_id msg) (mm_from msg)
                  (mm_payload msg) w1) as [[v|e] w2]; simpl in *;
        [discriminate|]. rewrite Hs, Hq. auto.
    + right. exists url, tok, (mm_id msg), (mm_from msg), (mm_payload msg).
      destruct (sendEmail env c (workItem env) (mm_id msg) (mm_from msg)
                  (mm_payload msg) w1) as [[v|e] w2]; simpl in *;
        rewrite Hs, Hq; reflexivity.
  - split; [|discriminate]. intros _. auto.
Qed.

(** X11: what [processMessage] posts for a fetched message: the work item
    carries the id the mail API returned with the message, the address
    extracted from its [From] header and its decoded body, and it goes, with
    the fresh token, to the URL built from the token document. *)
Theorem processMessage_forwards_extracted w res h resp j tok base :
  chain_get c id = Resolved res ->
  find_From (headers (m_payload res)) = Some h ->
  chain_fetch c (token_request env (workItem env)) = Resolved resp ->
  (200 <= status resp < 300)%Z ->
  json resp = Resolved j ->
  js_get j "access_token" = Resolved tok -> truthy tok = true ->
  js_get j "resource_server_base_uri" = Resolved base -> truthy base = true ->
  requests (snd (processMessage env c id w)) =
  requests w ++
  [token_request env (workItem env);
   work_item_request env (workItem env) (workItemURL_of base) tok
     (m_id res) (extract_from (h_value h))
     (decode_payload env (b_data (body (m_payload res)))) "email"].
Proof.
  intros Hr Hf Hfetch Hs Hj Ht Tt Hu Tu. apply response_ok_spec in Hs.
  rewrite processMessage_steps, (getMessage_with_From env c id w res h Hr Hf).
  cbv beta iota. cbn [mm_id mm_from mm_payload].
  rewrite (sendEmail_posts_after_token env c (workItem env) _ _ _ _ resp j tok
             base Hfetch Hs Hj (holding_is_complete j tok base Ht Tt Hu Tu) Ht Hu).
  unfold catch_, then_, resolve, console_error, emit, reject.
  match goal with
  | |- context [postWorkItem ?e ?c0 ?s ?u ?t ?i ?f ?p ?ty ?w0] =>
      pose proof (postWorkItem_requests e c0 s u t i f p ty w0) as Hp;
      destruct (postWorkItem e c0 s u t i f p ty w0) as [[v|err] w3]
  end; simpl in *; rewrite ?requests_record_event, ?app_nil_r; rewrite Hp;
    rewrite ?requests_record_event; simpl; rewrite ?app_nil_r, <- ?app_assoc;
    reflexivity.
Qed.

End OneMessage.


Lemma processMessage_no_traffic_example :
  requests (snd (processMessage Sample.env Faults.unreachable_chain "m1"
                   (initial_world ∅))) = []
  /\ rejection (fst (processMessage Sample.env Faults.unreachable_chain "m1"
                       (initial_world ∅)))
     = Some (Error_ "Not Found").
Proof.
  exact (proj1 (processMessage_requests_shape Sample.env
                  Faults.unreachable_chain "m1" (initial_world ∅)) eq_refl).
Defined.

Lemma processMessage_forwards_example :
  map req_body
    (requests (snd (processMessage Sample.env Sample.good_chain "listed-id"
                      (initial_world ∅))))
  = [Sample.stringify (JObj [("grant_type", JStr "client_credentials")]);
     Sample.stringify
       (JObj [("pointOfContact", JStr "your poc");
              ("workItemId", JStr "listed-id");
              ("workItemPayload", JStr "hello");
              ("workItemType", JStr "email");
              ("from", JStr "a@b.com")])].
Proof.
  rewrite (processMessage_forwards_extracted Sample.env Sample.good_chain
             "listed-id" (initial_world ∅)
             (Sample.message "listed-id"
                [mkHeader "To" "me@x.org"; mkHeader "From" Sample.from_header]
                (Some "aGVsbG8"))
             (mkHeader "From" Sample.from_header)
             Sample.token_response _ (JStr "tok") (JStr Sample.base_uri)
             eq_refl eq_refl eq_refl ltac:(simpl; lia) eq_refl eq_refl eq_refl
             eq_refl eq_refl).
  vm_compute. reflexivity.
Defined.

(** ** The driver before the batch *)

Section DriverEdges.

Variable env : Env.

(** X12: an inbox listed as an empty array gives a run that resolves to no
    pairs at all. *)
Theorem run_empty_list w0 w1 res :
  authorize env w0 = (Resolved tt, w1) ->
  messages_list env = Resolved res ->
  messages res = Some [] ->
  run env w0 = Resolved [] /\ main env w0 = PrintedResults [].
Proof.
  intros Ha Hl Hm. unfold main, run, then_. rewrite Ha.
  unfold getMessageList, then_, catch_, console_log, emit, settle, resolve.
  simpl. rewrite Hl, Hm. split; reflexivity.
Qed.

(** X13: the run stops at the first failing step: a rejection of
    [authorize] or of the inbox listing is the rejection of the run, and the
    driver prints that error. *)
Theorem run_early_failure w0 :
  (forall e w1,
     authorize env w0 = (Rejected e, w1) ->
     run env w0 = Rejected e /\ main env w0 = PrintedError e)
  /\ (forall e w1,
        authorize env w0 = (Resolved tt, w1) ->
        messages_list env = Rejected e ->
        run env w0 = Rejected e /\ main env w0 = PrintedError e).
Proof.
  split.
  - intros e w1 Ha. unfold main, run, then_. rewrite Ha. split; reflexivity.
  - intros e w1 Ha Hl. unfold main, run, then_. rewrite Ha.
    unfold getMessageList, then_, catch_, console_log, console_error, emit,
      settle, resolve, reject. simpl. rewrite Hl. split; reflexivity.
Qed.

End DriverEdges.

Lemma run_empty_list_example :
  run Faults.env_zero_messages (initial_world Sample.fs_with_token) = Resolved [].
Proof.
  refine (proj1 (run_empty_list Faults.env_zero_messages
                   (initial_world Sample.fs_with_token) _
                   {| messages := Some [] |} _ eq_refl eq_refl)).
  vm_compute. reflexivity.
Defined.

Lemma run_early_failure_example :
  run Faults.env_no_listing (initial_world Sample.fs_with_token)
  = Rejected (Error_ "Forbidden").
Proof.
  refine (proj1 (proj2 (run_early_failure Faults.env_no_listing
                          (initial_world Sample.fs_with_token))
                   (Error_ "Forbidden") _ _ eq_refl)).
  vm_compute. reflexivity.
Defined.

(** ** [authorize], beyond the two good cases *)

Lemma has_code_fs_error code description path c :
  has_code (fs_error code description path) c = String.eqb code c.
Proof. reflexivity. Qed.

Section AuthorizeEdges.

Variable env : Env.

Ltac auth_unfold :=
  unfold authorize, authorize_then, _getNewToken, _ask, writeFileAsync,
    setCredentials, set_oAuth2Client, readFileAsync, this, then_, catch_,
    console_log, console_error, emit, settle, resolve, reject, record_event;
  simpl.

Ltac count_events_steps :=
  unfold prompts, writes, count_events; simpl;
  rewrite ?List.filter_app, ?length_app; simpl; lia.

(** X14: a token file that is there but cannot be used is fatal: when
    reading it fails with a code other than [ENOENT], or its content does
    not parse, [authorize] rejects with that very error after one line on
    the error console; the operator is not asked, nothing is written and the
    files stay as they were. *)
Theorem authorize_unusable_token_is_fatal w cred client e :
  files w !! credentialFile (gmail w) = Some (Regular cred) ->
  make_client env cred = Resolved client ->
  (exists code description,
     files w !! tokenFile (gmail w) = Some (Faulty code description)
     /\ e = fs_error code description (tokenFile (gmail w)))
  \/ (exists t,
        files w !! tokenFile (gmail w) = Some (Regular t)
        /\ JSON_parse env t = Rejected e) ->
  has_code e "ENOENT" = false ->
  fst (authorize env w) = Rejected e
  /\ events (snd (authorize env w)) =
     events w ++ [ConsoleLog "authorize()";
                  ConsoleError ("authorize() - " +:+ err_message e)]
  /\ prompts (snd (authorize env w)) = prompts w
  /\ writes (snd (authorize env w)) = writes w
  /\ files (snd (authorize env w)) = files w.
Proof.
  intros Hc Hm Htok Hcode.
  assert (Ha : authorize env w =
    (Rejected e,
     {| files := files w;
        events := events w ++ [ConsoleLog "authorize()";
                               ConsoleError ("authorize() - " +:+ err_message e)];
        gmail := {| credentialFile := credentialFile (gmail w);
                    tokenFile := tokenFile (gmail w);
                    oAuth2Client := Some client |} |})).
  { destruct Htok as [(code & description & Ht & ->) | (t & Ht & Hp)];
      auth_unfold; rewrite Hc; simpl; rewrite Hm; simpl; rewrite Ht; simpl.
    - rewrite has_code_fs_error in Hcode. unfold has_code. simpl.
      rewrite Hcode. simpl. rewrite <- app_assoc. reflexivity.
    - rewrite Hp. simpl. rewrite Hcode. simpl. rewrite <- app_assoc.
      reflexivity. }
  rewrite Ha. simpl. repeat split; count_events_steps.
Qed.

(** X15: what the handshake persisted is what the next call loads: after an
    [authorize] that went through the handshake and wrote the token file, a
    second [authorize] resolves without asking the operator or writing, and
    applies the token that the parser reads back from the file. *)
Theorem authorize_second_run_reuses_token w cred client tok tok' :
  files w !! credentialFile (gmail w) = Some (Regular cred) ->
  make_client env cred = Resolved client ->
  files w !! tokenFile (gmail w) = None ->
  oauth_getToken env client (operator_reply env (prompts w)) = Resolved tok ->
  write_fault env (tokenFile (gmail w)) = None ->
  JSON_parse env (JSON_stringify env tok) = Resolved tok' ->
  fst (authorize env (snd (authorize env w))) = Resolved tt
  /\ prompts (snd (authorize env (snd (authorize env w))))
     = prompts (snd (authorize env w))
  /\ writes (snd (authorize env (snd (authorize env w))))
     = writes (snd (authorize env w))
  /\ exists c2,
       oAuth2Client (gmail (snd (authorize env (snd (authorize env w))))) = Some c2
       /\ credentials c2 = Some tok'.
Proof.
  intros Hc Hm Ht Hx Hw Hp.
  assert (Hne : credentialFile (gmail w) <> tokenFile (gmail w)).
  { intros E. rewrite E, Ht in Hc. discriminate. }
  pose proof (authorize_exchange_accepted env w cred client tok Hc Hm Ht Hx) as Ha.
  simpl in Ha. rewrite Hw in Ha. rewrite Ha. cbn [snd].
  match goal with
  | |- context [authorize env ?w1] =>
      rewrite (authorize_token_present env w1 cred client
                 (JSON_stringify env tok) tok')
  end; simpl.
  - repeat split; try count_events_steps. eexists. split; reflexivity.
  - rewrite lookup_insert_ne; [exact Hc | congruence].
  - exact Hm.
  - apply lookup_insert_eq.
  - exact Hp.
Qed.

(** X16: when the provider accepts the code but writing the token file
    fails, [authorize] rejects with the error of the write, reported once on
    the error console, and the token is applied to the session all the
    same.  When the failure is at the open, the files are as before; when it
    comes while writing, the token file has been created or truncated and
    holds only what was written before the failure. *)
Theorem authorize_write_failure w cred client tok fault :
  files w !! credentialFile (gmail w) = Some (Regular cred) ->
  make_client env cred = Resolved client ->
  files w !! tokenFile (gmail w) = None ->
  oauth_getToken env client (operator_reply env (prompts w)) = Resolved tok ->
  write_fault env (tokenFile (gmail w)) = Some fault ->
  fst (authorize env w)
  = Rejected match fault with
             | OpenFails code description =>
                 fs_error code description (tokenFile (gmail w))
             | WriteFails code description _ =>
                 fs_write_error code description
             end
  /\ files (snd (authorize env w))
     = match fault with
       | OpenFails _ _ => files w
       | WriteFails _ _ written =>
           <[tokenFile (gmail w) :=
               Regular (substring 0 written (JSON_stringify env tok))]> (files w)
       end
  /\ (exists c, oAuth2Client (gmail (snd (authorize env w))) = Some c
                /\ credentials c = Some tok)
  /\ count_events is_console_error (snd (authorize env w))
     = count_events is_console_error w + 1.
Proof.
  intros Hc Hm Ht Hx Hw.
  pose proof (authorize_exchange_accepted env w cred client tok Hc Hm Ht Hx) as Ha.
  simpl in Ha. rewrite Hw in Ha. rewrite Ha.
  destruct fault as [code description|code description written]; simpl;
    repeat split; try count_events_steps; eexists; split; reflexivity.
Qed.

(** X17: when the credential file is missing but the object still holds a
    client from an earlier call, [authorize] takes the missing credential
    file for a missing token file and runs the handshake with the old
    client: the operator is asked once. *)
Theorem authorize_missing_credentials_old_client w client :
  files w !! credentialFile (gmail w) = None ->
  oAuth2Client (gmail w) = Some client ->
  prompts (snd (authorize env w)) = prompts w + 1
  /\ (forall tok,
        oauth_getToken env client (operator_reply env (prompts w)) = Resolved tok ->
        write_fault env (tokenFile (gmail w)) = None ->
        fst (authorize env w) = Resolved tt
        /\ files (snd (authorize env w)) !! tokenFile (gmail w)
           = Some (Regular (JSON_stringify env tok))).
Proof.
  intros Hc Ho. auth_unfold. rewrite Hc. simpl. rewrite Ho. simpl.
  assert (Hpr : forall fs g l1 l2 l3 l4,
            prompts {| files := fs;
                       events := (((events w ++ [ConsoleLog l1]) ++ [ConsoleLog l2])
                                  ++ [ConsoleLog l3]) ++ [ConsoleLog l4];
                       gmail := g |} = prompts w).
  { intros. unfold prompts, count_events. simpl.
    rewrite !List.filter_app. simpl. now rewrite !app_nil_r. }
  rewrite Hpr.
  destruct (oauth_getToken env client (operator_reply env (prompts w)))
    as [tok|e]; simpl; rewrite ?Ho; simpl.
  - destruct (write_fault env (tokenFile (gmail w)))
      as [[code description|code description written]|]; simpl.
    + split; [count_events_steps|]. intros tok' _ Hw. discriminate Hw.
    + split; [count_events_steps|]. intros tok' _ Hw. discriminate Hw.
    + split; [count_events_steps|]. intros tok' E _. inversion E; subst.
      split; [reflexivity|]. apply lookup_insert_eq.
  - split; [count_events_steps|]. intros tok' E. discriminate E.
Qed.

End AuthorizeEdges.

(** ** [authorize], in every run *)

Section AuthorizeAlways.

Variable env : Env.

Ltac auth_unfold :=
  unfold authorize, authorize_then, _getNewToken, _ask, writeFileAsync,
    setCredentials, set_oAuth2Client, readFileAsync, this, then_, catch_,
    console_log, console_error, emit, settle, resolve, reject, record_event;
  simpl.

(** Case analysis over everything [authorize] looks at. *)
Ltac auth_cases w :=
  repeat (simpl;
    match goal with
    | |- context [files w !! credentialFile (gmail w)] =>
        destruct (files w !! credentialFile (gmail w)) as [[?|? ?]|] eqn:?
    | |- context [files w !! tokenFile (gmail w)] =>
        destruct (files w !! tokenFile (gmail w)) as [[?|? ?]|] eqn:?
    | |- context [make_client env ?s] => destruct (make_client env s) eqn:?
    | |- context [JSON_parse env ?s] => destruct (JSON_parse env s) eqn:?
    | |- context [has_code ?e ?c] => destruct (has_code e c) eqn:?
    | |- context [String.eqb ?a ?b] => destruct (String.eqb a b) eqn:?
    | |- context [oAuth2Client (gmail w)] =>
        destruct (oAuth2Client (gmail w)) eqn:?
    | |- context [oauth_getToken env ?c ?code] =>
        destruct (oauth_getToken env c code) eqn:?
    | |- context [write_fault env ?p] =>
        destruct (write_fault env p) as [[? ?|? ? ?]|] eqn:?
    end).

(** The events before a write, when the write is at the head. *)
Ltac before_write before E :=
  first
    [ discriminate E
    | destruct before as [|? before]; simpl in E;
      [ first
          [ discriminate E
          | injection E as <- _ _; split;
            [ reflexivity
            | eexists; simpl; repeat (first [left; reflexivity | right]) ] ]
      | first [ discriminate E
              | injection E as <- E; before_write before E ] ] ].

(** X18: whatever the files, the provider and the operator do, one call of
    [authorize] asks the operator at most once and writes at most once; a
    write goes to the token file and comes later in the run than the
    question to the operator. *)
Theorem authorize_asks_and_writes_at_most_once w :
  exists new,
    events (snd (authorize env w)) = events w ++ new
    /\ length (List.filter is_question new) <= 1
    /\ length (List.filter is_write new) <= length (List.filter is_question new)
    /\ (forall p d, In (WriteFile p d) new -> p = tokenFile (gmail w))
    /\ (forall before p d after,
          new = before ++ WriteFile p d :: after ->
          p = tokenFile (gmail w)
          /\ exists prompt, In (Question prompt) before).
Proof.
  auth_unfold. auth_cases w; simpl;
    (eexists; split;
     [repeat (rewrite <- app_assoc; simpl); reflexivity|]);
    simpl; (split; [lia|]); (split; [lia|]);
    (split;
     [ intros p d Hin;
       repeat (destruct Hin as [Hin|Hin]; [try discriminate Hin|]);
       try contradiction; inversion Hin; reflexivity
     | intros before p d after E; before_write before E ]).
Qed.

(** X19: one call of [authorize] changes no file other than the token file,
    and leaves the two paths of the object as they were. *)
Theorem authorize_touches_only_token_file w p :
  p <> tokenFile (gmail w) ->
  files (snd (authorize env w)) !! p = files w !! p
  /\ credentialFile (gmail (snd (authorize env w))) = credentialFile (gmail w)
  /\ tokenFile (gmail (snd (authorize env w))) = tokenFile (gmail w).
Proof.
  intros Hp. auth_unfold. auth_cases w; simpl;
    repeat split; try reflexivity; now rewrite lookup_insert_ne by congruence.
Qed.

End AuthorizeAlways.

Lemma authorize_unusable_token_example :
  fst (authorize Sample.env (initial_world Faults.fs_garbled_token))
  = Rejected Sample.SyntaxError
  /\ prompts (snd (authorize Sample.env (initial_world Faults.fs_garbled_token)))
     = 0
  /\ fst (authorize Sample.env (initial_world Faults.fs_locked_token))
     = Rejected (fs_error "EACCES" "permission denied" TOKEN_FILE).
Proof.
  destruct (authorize_unusable_token_is_fatal Sample.env
              (initial_world Faults.fs_garbled_token)
              (Sample.stringify Sample.credentials_json) Faults.sample_client
              Sample.SyntaxError
              ltac:(vm_compute; reflexivity) eq_refl
              ltac:(right; exists "{"; split; vm_compute; reflexivity)
              eq_refl) as (Hr & _ & Hp & _).
  destruct (authorize_unusable_token_is_fatal Sample.env
              (initial_world Faults.fs_locked_token)
              (Sample.stringify Sample.credentials_json) Faults.sample_client
              (fs_error "EACCES" "permission denied" TOKEN_FILE)
              ltac:(vm_compute; reflexivity) eq_refl
              ltac:(left; exists "EACCES", "permission denied"; split;
                    vm_compute; reflexivity)
              eq_refl) as (Hr' & _).
  rewrite Hr, Hp, Hr'. repeat split.
Defined.

Lemma authorize_second_run_example :
  fst (authorize Sample.env
         (snd (authorize Sample.env (initial_world Sample.fs_credentials_only))))
  = Resolved tt
  /\ prompts (snd (authorize Sample.env
                     (snd (authorize Sample.env
                             (initial_world Sample.fs_credentials_only)))))
     = prompts (snd (authorize Sample.env
                       (initial_world Sample.fs_credentials_only))).
Proof.
  destruct (authorize_second_run_reuses_token Sample.env
              (initial_world Sample.fs_credentials_only)
              (Sample.stringify Sample.credentials_json) Faults.sample_client
              Sample.token_json Sample.token_json
              ltac:(vm_compute; reflexivity) eq_refl
              ltac:(vm_compute; reflexivity) eq_refl eq_refl eq_refl)
    as (Hr & Hp & _).
  split; assumption.
Defined.

Lemma authorize_write_failure_example :
  (fst (authorize Faults.env_disk_full (initial_world Sample.fs_credentials_only))
   = Rejected (fs_write_error "ENOSPC" "no space left on device")
   /\ files (snd (authorize Faults.env_disk_full
                    (initial_world Sample.fs_credentials_only))) !! TOKEN_FILE
      = Some (Regular ""))
  /\ (fst (authorize Faults.env_read_only (initial_world Sample.fs_credentials_only))
      = Rejected (fs_error "EACCES" "permission denied" TOKEN_FILE)
      /\ files (snd (authorize Faults.env_read_only
                       (initial_world Sample.fs_credentials_only)))
         = Sample.fs_credentials_only).
Proof.
  split.
  - destruct (authorize_write_failure Faults.env_disk_full
                (initial_world Sample.fs_credentials_only)
                (Sample.stringify Sample.credentials_json) Faults.sample_client
                Sample.token_json
                (WriteFails "ENOSPC" "no space left on device" 0)
                ltac:(vm_compute; reflexivity) eq_refl
                ltac:(vm_compute; reflexivity) eq_refl eq_refl)
      as (Hr & Hf & _).
    rewrite Hr, Hf. split; [reflexivity|]. apply lookup_insert_eq.
  - destruct (authorize_write_failure Faults.env_read_only
                (initial_world Sample.fs_credentials_only)
                (Sample.stringify Sample.credentials_json) Faults.sample_client
                Sample.token_json (OpenFails "EACCES" "permission denied")
                ltac:(vm_compute; reflexivity) eq_refl
                ltac:(vm_compute; reflexivity) eq_refl eq_refl)
      as (Hr & Hf & _).
    split; assumption.
Defined.

Lemma authorize_old_client_example :
  prompts (snd (authorize Sample.env Faults.world_old_client)) = 1.
Proof.
  exact (proj1 (authorize_missing_credentials_old_client Sample.env
                  Faults.world_old_client Faults.sample_client
                  eq_refl eq_refl)).
Defined.

Lemma authorize_touches_only_token_file_example :
  files (snd (authorize Sample.env (initial_world Sample.fs_credentials_only)))
    !! CREDENTIAL_FILE
  = Some (Regular (Sample.stringify Sample.credentials_json)).
Proof.
  rewrite (proj1 (authorize_touches_only_token_file Sample.env
                    (initial_world Sample.fs_credentials_only) CREDENTIAL_FILE
                    ltac:(discriminate))).
  vm_compute. reflexivity.
Defined.

(** ** Which header [getMessage] reads *)

(** X20: among the headers of a message, the first one whose name is exactly
    [From] (in that spelling) is the one the sender is taken from; headers
    before it with other names, and any header after it, play no part. *)
Theorem getMessage_first_From_header env c id w res pre h post :
  chain_get c id = Resolved res ->
  headers (m_payload res) = pre ++ h :: post ->
  (forall o, In o pre -> h_name o <> "From") ->
  h_name h = "From" ->
  exists msg w',
    getMessage env c id w = (Resolved msg, w')
    /\ mm_from msg = extract_from (h_value h).
Proof.
  intros Hr Hh Hpre Hn.
  assert (Hf : find_From (headers (m_payload res)) = Some h).
  { unfold find_From. rewrite Hh. apply find_first.
    - intros o Ho. destruct (String.eqb_spec (h_name o) "From"); [|reflexivity].
      now apply Hpre in Ho.
    - now apply String.eqb_eq. }
  eexists _, _.
  split; [apply (getMessage_with_From env c id w res h Hr Hf) | reflexivity].
Qed.

Lemma getMessage_first_From_header_example :
  exists msg w',
    getMessage Sample.env
      {| chain_get := fun id =>
           Resolved (Sample.message id
                       [mkHeader "from" "lower@case.org";
                        mkHeader "From" "first@x.org";
                        mkHeader "From" "second@x.org"] None);
         chain_fetch := chain_fetch Sample.good_chain;
         chain_tick := 0 |}
      "m1" (initial_world ∅) = (Resolved msg, w')
    /\ mm_from msg = "first@x.org".
Proof.
  destruct (getMessage_first_From_header Sample.env
              {| chain_get := fun id =>
                   Resolved (Sample.message id
                               [mkHeader "from" "lower@case.org";
                                mkHeader "From" "first@x.org";
                                mkHeader "From" "second@x.org"] None);
                 chain_fetch := chain_fetch Sample.good_chain;
                 chain_tick := 0 |}
              "m1" (initial_world ∅) _
              [mkHeader "from" "lower@case.org"]
              (mkHeader "From" "first@x.org")
              [mkHeader "From" "second@x.org"] eq_refl eq_refl)
    as (msg & w' & Hrun & Hfrom).
  - intros o [<-|[]]. discriminate.
  - reflexivity.
  - exists msg, w'. split; [exact Hrun|]. rewrite Hfrom. vm_compute. reflexivity.
Defined.
